(** * inipp: a shallow embedding of [inipp.hh] and its specification

    The header [inipp.hh] parses a line-oriented INI document into two
    hash maps (named sections and the default section) and offers
    accessors on top of them.  This development embeds

    - the [std::string] primitives the header calls,
    - the text utilities of [namespace private_],
    - the constructor [inifile::inifile] as a loop over [std::getline],
    - the accessors [get], [dget], [section], [getval],

    and proves the properties the specification states about them.

    Conventions.  A [std::string] is a [string] of 8-bit [ascii]
    characters.  [std::string::npos] is [None]; every other [size_t]
    that occurs is a position inside a string, so it is a [nat] and no
    subtraction in the source can wrap (each one is justified where it
    is embedded).  A thrown exception is the left injection of a sum. *)

From Stdlib Require Import Ascii ZArith Lia.
From Stdlib Require String.
From stdpp Require Import base option list gmap strings fin_maps.
From Equations Require Import Equations.

Local Open Scope char_scope.

(** ** Exceptions and the result type *)

(** The three exception classes of the header.  Each one derives from
    [std::runtime_error] and carries nothing but its [what()] text. *)
Inductive exception : Type :=
| UnknownEntry (what : string)
| UnknownSection (what : string)
| SyntaxError (what : string).

(** [unknown_entry_error(const std::string& key)] *)
Definition unknown_entry_error1 (key : string) : exception :=
  UnknownEntry ("Unknown entry '" +:+ key +:+ "'.").

(** [unknown_entry_error(const std::string& key, const std::string& section)] *)
Definition unknown_entry_error (key section : string) : exception :=
  UnknownEntry ("Unknown entry '" +:+ key +:+ "' in section '" +:+
                section +:+ "'.").

(** [unknown_section_error(const std::string& section)] *)
Definition unknown_section_error (section : string) : exception :=
  UnknownSection ("Unknown section '" +:+ section +:+ "'.").

(** [syntax_error(const std::string& msg)] *)
Definition syntax_error (msg : string) : exception := SyntaxError msg.

Definition what (e : exception) : string :=
  match e with
  | UnknownEntry w | UnknownSection w | SyntaxError w => w
  end.

(** A computation that either throws or returns. *)
Definition result (A : Type) : Type := exception + A.
Definition throw {A} (e : exception) : result A := inl e.
Definition ret {A} (a : A) : result A := inr a.

(** [try { m } catch (...) { h }] *)
Definition try_catch_all {A} (m : result A) (h : result A) : result A :=
  match m with
  | inl _ => h
  | inr a => inr a
  end.

Definition is_syntax_error (e : exception) : bool :=
  match e with SyntaxError _ => true | _ => false end.
Definition is_unknown_section (e : exception) : bool :=
  match e with UnknownSection _ => true | _ => false end.
Definition is_unknown_entry (e : exception) : bool :=
  match e with UnknownEntry _ => true | _ => false end.

(** ** The [std::string] members used by the header *)

Module std_string.

(** [c] occurs in the character set [set]. *)
Fixpoint mem (c : ascii) (set : string) : bool :=
  match set with
  | EmptyString => false
  | String d set' => if Ascii.eqb c d then true else mem c set'
  end.

(** [s.find_first_of(set)] *)
Fixpoint find_first_of (s set : string) : option nat :=
  match s with
  | EmptyString => None
  | String c s' =>
      if mem c set then Some 0 else S <$> find_first_of s' set
  end.

(** [s.find_first_not_of(set)] *)
Fixpoint find_first_not_of (s set : string) : option nat :=
  match s with
  | EmptyString => None
  | String c s' =>
      if mem c set then S <$> find_first_not_of s' set else Some 0
  end.

(** [s.find_last_not_of(set)] *)
Fixpoint find_last_not_of (s set : string) : option nat :=
  match s with
  | EmptyString => None
  | String c s' =>
      match find_last_not_of s' set with
      | Some i => Some (S i)
      | None => if mem c set then None else Some 0
      end
  end.

(** [s.find(sep)]: position of the first occurrence of [sep]. *)
Definition find (s sep : string) : option nat := String.index 0 sep s.

(** [s.substr(pos, n)]; the header only calls it with [pos <= s.size()],
    where it cannot throw. *)
Definition substr (s : string) (pos n : nat) : string :=
  String.substring pos n s.

(** [s.erase(pos)]: drop everything from [pos] on. *)
Definition erase_from (s : string) (pos : nat) : string :=
  String.substring 0 pos s.

(** [s.erase(0, n)]: drop the first [n] characters. *)
Definition erase_front (s : string) (n : nat) : string :=
  String.substring n (String.length s - n) s.

(** [s.size()] *)
Definition size (s : string) : nat := String.length s.

(** [s[i]]; the header only indexes inside the string. *)
Definition at_ (s : string) (i : nat) : option ascii := String.get i s.

End std_string.

(** ** [namespace private_]: the text utilities *)

Module private_.
Import std_string.

(** The default argument [" \t\n\r\f\v"] of [trim]. *)
Definition whitespace : string :=
  String " " (String "009" (String "010" (String "013"
    (String "012" (String "011" EmptyString))))).

Definition rstrip (s c_to_strip : string) : string :=
  match find_last_not_of s c_to_strip with
  | None => EmptyString
  | Some endpos => erase_from s (endpos + 1)
  end.

Definition lstrip (s c_to_strip : string) : string :=
  match find_first_not_of s c_to_strip with
  | None => EmptyString
  | Some startpos => erase_front s startpos
  end.

Definition trim_with (str whitespace : string) : string :=
  rstrip (lstrip str whitespace) whitespace.

Definition trim (str : string) : string := trim_with str whitespace.

(** [split(in, sep, first, second)]: [None] is the [false] return, which
    leaves both output parameters untouched.  [eqpos + sep.size()] is at
    most [in.size()], so the length of the second piece does not wrap. *)
Definition split (inp sep : string) : option (string * string) :=
  match find inp sep with
  | None => None
  | Some eqpos =>
      Some (substr inp 0 eqpos,
            substr inp (eqpos + size sep) (size inp - eqpos - size sep))
  end.

(** [strip_comment(s, mark)] *)
Definition strip_comment_mark (s mark : string) : string :=
  match find_first_of s mark with
  | Some pos => erase_from s pos
  | None => s
  end.

(** [strip_comment(s)] *)
Definition strip_comment (s : string) : string :=
  strip_comment_mark (strip_comment_mark s "#") ";".

End private_.

(** ** [class inifile]: the store and its constructor *)

(** The two data members of [inifile]: [kkv_t sections_] and
    [kv_t defaultsection_]. *)
Record inifile : Type := mk_inifile {
  sections_ : gmap string (gmap string string);
  defaultsection_ : gmap string string
}.

(** The local [kv_t* cursec] of the constructor.  It only ever holds
    [&this->defaultsection_] ([None]) or [&this->sections_[name]]
    ([Some name]); elements of an [unordered_map] do not move, so the
    pointer is its key, and a write through it is a write into the store. *)
Definition cursec_t : Type := option string.

(** [std::getline(infile, line)] on a stream holding [infile]: characters
    up to the next newline (extracted, not stored) or the end of the
    stream.  It fails, ending the loop, when nothing is left. *)
Fixpoint read_line (infile : string) : string * string :=
  match infile with
  | EmptyString => (EmptyString, EmptyString)
  | String c rest =>
      if Ascii.eqb c "010" then (EmptyString, rest)
      else let '(line, rest') := read_line rest in (String c line, rest')
  end.

Definition getline (infile : string) : option (string * string) :=
  match infile with
  | EmptyString => None
  | String _ _ => Some (read_line infile)
  end.

(** [&this->sections_[line]]: [operator[]] default-constructs the map of
    a header seen for the first time and finds the existing one otherwise. *)
Definition sections_index (name : string) (ini : inifile) : inifile :=
  match sections_ ini !! name with
  | Some _ => ini
  | None => mk_inifile (<[name := ∅]> (sections_ ini)) (defaultsection_ ini)
  end.

(** The assignment through [cursec] on line 243: the map it points at
    gets [key] bound to [value], overwriting an earlier binding. *)
Definition cursec_assign (cursec : cursec_t) (key value : string)
    (ini : inifile) : inifile :=
  match cursec with
  | None =>
      mk_inifile (sections_ ini) (<[key := value]> (defaultsection_ ini))
  | Some name =>
      mk_inifile (alter (insert key value) name (sections_ ini))
                 (defaultsection_ ini)
  end.

Definition char_is (o : option ascii) (c : ascii) : bool :=
  match o with
  | Some d => Ascii.eqb d c
  | None => false
  end.

Definition string_empty (s : string) : bool :=
  match s with EmptyString => true | _ => false end.

(** The body of the [while] loop, lines 216-248.  [line.size() - 2] is
    only computed after [line[0] == '['] and [line[size - 1] == ']'] both
    held, which needs two characters. *)
Definition parse_line (line : string) (st : cursec_t * inifile)
    : result (cursec_t * inifile) :=
  let '(cursec, ini) := st in
  let line := private_.trim line in
  let line := private_.strip_comment line in
  if string_empty line then ret (cursec, ini)
  else if char_is (std_string.at_ line 0) "[" then
    if negb (char_is (std_string.at_ line (std_string.size line - 1)) "]")
    then throw (syntax_error ("The section '" +:+ line +:+
                              "' is missing a closing bracket."))
    else
      let line :=
        private_.trim (std_string.substr line 1 (std_string.size line - 2)) in
      ret (Some line, sections_index line ini)
  else
    match private_.split line "=" with
    | Some (key, value) =>
        ret (cursec,
             cursec_assign cursec (private_.trim key) (private_.trim value) ini)
    | None => throw (syntax_error ("The line '" +:+ line +:+ "' is invalid."))
    end.

Lemma read_line_shorter c infile :
  String.length (read_line (String c infile)).2 < String.length (String c infile).
Proof.
  revert c. induction infile as [|d rest IH]; intros c; simpl.
  - destruct (Ascii.eqb c "010"); simpl; lia.
  - destruct (Ascii.eqb c "010"); simpl; [lia|].
    specialize (IH d). simpl in IH.
    destruct (Ascii.eqb d "010"); simpl in *; [lia|].
    destruct (read_line rest); simpl in *. lia.
Qed.

Lemma getline_shorter infile line rest :
  getline infile = Some (line, rest) → String.length rest < String.length infile.
Proof.
  destruct infile as [|c infile]; [discriminate|].
  intros H. pose proof (read_line_shorter c infile) as Hlt.
  assert (Hr : read_line (String c infile) = (line, rest))
    by (unfold getline in H; congruence).
  rewrite Hr in Hlt. exact Hlt.
Qed.

(** A value together with the equation that it is the one inspected. *)
Definition inspect {A : Type} (x : A) : {y : A | x = y} := exist _ x eq_refl.

(** [while(std::getline(infile, line)) { ... }] *)
Equations parse_loop (infile : string) (st : cursec_t * inifile)
    : result (cursec_t * inifile) by wf (String.length infile) lt :=
  parse_loop infile st with inspect (getline infile) := {
    | exist _ None _ => ret st
    | exist _ (Some (line, rest)) Hget with parse_line line st := {
        | inl e => throw e
        | inr st' => parse_loop rest st' } }.
Next Obligation. eapply getline_shorter; eassumption. Qed.

(** [inifile::inifile(std::ifstream& infile)], lines 211-250 (the
    [std::ifstream&&] overload delegates to it): both maps start empty and
    [cursec] points at the default section.  A [syntax_error] leaves the
    constructor by unwinding, so no object exists afterwards. *)
Definition inifile_ctor (infile : string) : result inifile :=
  match parse_loop infile (None, mk_inifile ∅ ∅) with
  | inl e => throw e
  | inr (_, ini) => ret ini
  end.

(** ** The accessors of [inifile] *)

(** [inifile::get(section, key)], lines 252-263.  The second [throw] passes
    [(section, key)] to a constructor declared as [(key, section)]. *)
Definition get (ini : inifile) (section key : string) : result string :=
  match sections_ ini !! section with
  | None => throw (unknown_section_error section)
  | Some kv =>
      match kv !! key with
      | None => throw (unknown_entry_error section key)
      | Some value => ret value
      end
  end.

(** [inifile::get(key)], lines 265-271: the default-section form. *)
Definition get1 (ini : inifile) (key : string) : result string :=
  match defaultsection_ ini !! key with
  | None => throw (unknown_entry_error1 key)
  | Some value => ret value
  end.

(** [inifile::dget(section, key, default_value)], lines 273-283.  The two
    handlers catch by class; anything else would propagate. *)
Definition dget (ini : inifile) (section key default_value : string)
    : result string :=
  match get ini section key with
  | inr value => ret value
  | inl (UnknownSection _) => ret default_value
  | inl (UnknownEntry _) => ret default_value
  | inl e => throw e
  end.

(** [inifile::dget(key, default_value)], lines 285-293. *)
Definition dget1 (ini : inifile) (key default_value : string)
    : result string :=
  match get1 ini key with
  | inr value => ret value
  | inl (UnknownEntry _) => ret default_value
  | inl e => throw e
  end.

(** [class inisection]: the section name and the [const inifile&] it was
    made from.  The store is never written after construction, so the
    reference is the store's value. *)
Record inisection : Type := mk_inisection {
  _section : string;
  _ini : inifile
}.

(** [inifile::section(section)], lines 295-301. *)
Definition section (ini : inifile) (name : string) : result inisection :=
  match sections_ ini !! name with
  | None => throw (unknown_section_error name)
  | Some _ => ret (mk_inisection name ini)
  end.

Definition inisection_name (h : inisection) : string := _section h.

Definition inisection_get (h : inisection) (key : string) : result string :=
  get (_ini h) (_section h) key.

Definition inisection_dget (h : inisection) (key default_val : string)
    : result string :=
  dget (_ini h) (_section h) key default_val.

(** ** Formatted extraction from a [std::istringstream] *)

(** The state of the stream that matters is the text not yet read.
    [skipws] is what the sentry of a formatted input function does under
    the default [std::ios_base::skipws] flag and the classic locale. *)
Fixpoint skipws (i : string) : string :=
  match i with
  | EmptyString => EmptyString
  | String c i' =>
      if std_string.mem c private_.whitespace then skipws i' else i
  end.

(** [i >> c] for [char c]: the next character that is not white space.
    [None] is the stream turning false (nothing but white space left). *)
Definition extract_char (i : string) : option (ascii * string) :=
  match skipws i with
  | EmptyString => None
  | String c i' => Some (c, i')
  end.

(** [i >> std::boolalpha >> rv] for a scalar [T]: [None] when the stream
    turns false, otherwise the value and what is left unread. *)
Class Extractable (T : Type) : Type :=
  extract : string → option (T * string).

(** [inifile::getval<T>(sec, key, def)], lines 144-162. *)
Definition getval {T} `{Extractable T} (ini : inifile) (sec key : string)
    (def : T) : result T :=
  match get ini sec key with
  | inl _ => ret def
  | inr src =>
      match extract src with
      | Some (rv, i) =>
          match extract_char i with
          | None => ret rv
          | Some _ => ret def
          end
      | None => ret def
      end
  end.

(** [inifile::getval(sec, key, def)] for [const char*] and
    [const std::string&] defaults, lines 164-176: a function-try-block
    around [dget]. *)
Definition getval_string (ini : inifile) (sec key def : string)
    : result string :=
  try_catch_all (dget ini sec key def) (ret def).

(** [inisection::getval<T>(key, def)], lines 85-102. *)
Definition inisection_getval {T} `{Extractable T} (h : inisection)
    (key : string) (def : T) : result T :=
  match inisection_get h key with
  | inl _ => ret def
  | inr src =>
      match extract src with
      | Some (rv, i) =>
          match extract_char i with
          | None => ret rv
          | Some _ => ret def
          end
      | None => ret def
      end
  end.

(** [inisection::getval(key, def)] for string defaults, lines 104-114. *)
Definition inisection_getval_string (h : inisection) (key def : string)
    : result string :=
  try_catch_all (inisection_dget h key def) (ret def).

(** *** The extraction operators of [bool] and [int] *)

(** [s] starts with [p]: what is left after [p], if so. *)
Fixpoint strip_prefix (p s : string) : option string :=
  match p, s with
  | EmptyString, _ => Some s
  | String a p', String b s' =>
      if Ascii.eqb a b then strip_prefix p' s' else None
  | String _ _, EmptyString => None
  end.

(** [std::num_get::do_get] for [bool] under [std::boolalpha]: the input
    is matched, character by character, against [truename()] and
    [falsename()] of the classic locale, that is ["true"] and ["false"]. *)
Definition extract_bool (i : string) : option (bool * string) :=
  let i := skipws i in
  match strip_prefix "true" i with
  | Some rest => Some (true, rest)
  | None =>
      match strip_prefix "false" i with
      | Some rest => Some (false, rest)
      | None => None
      end
  end.

#[global] Instance bool_extractable : Extractable bool := extract_bool.

Definition digit_value (c : ascii) : option Z :=
  match c with
  | "0" => Some 0%Z | "1" => Some 1%Z | "2" => Some 2%Z | "3" => Some 3%Z
  | "4" => Some 4%Z | "5" => Some 5%Z | "6" => Some 6%Z | "7" => Some 7%Z
  | "8" => Some 8%Z | "9" => Some 9%Z
  | _ => None
  end.

(** The decimal digits at the front of [i], accumulated into [acc];
    [seen] records that there was at least one. *)
Fixpoint read_digits (i : string) (acc : Z) (seen : bool)
    : Z * bool * string :=
  match i with
  | EmptyString => (acc, seen, EmptyString)
  | String c i' =>
      match digit_value c with
      | Some d => read_digits i' (10 * acc + d)%Z true
      | None => (acc, seen, i)
      end
  end.

Definition INT_MIN : Z := (- 2 ^ 31)%Z.
Definition INT_MAX : Z := (2 ^ 31 - 1)%Z.

(** [std::num_get::do_get] for [int] with [basefield == dec]: an optional
    sign, then every decimal digit that follows.  No digit, or a value
    outside [int], sets [failbit]. *)
Definition extract_int (i : string) : option (Z * string) :=
  let i := skipws i in
  let '(negative, i) :=
    match i with
    | String "-" i' => (true, i')
    | String "+" i' => (false, i')
    | _ => (false, i)
    end in
  let '(v, seen, rest) := read_digits i 0%Z false in
  if seen then
    let v := if negative then (- v)%Z else v in
    if ((INT_MIN <=? v) && (v <=? INT_MAX))%Z then Some (v, rest) else None
  else None.

(** [int] values are integers between [INT_MIN] and [INT_MAX]. *)
#[global] Instance int_extractable : Extractable Z := extract_int.

(** ** The document as the constructor sees it *)

(** The lines [std::getline] hands to the loop, in order. *)
Equations stream_lines (infile : string) : list string
    by wf (String.length infile) lt :=
  stream_lines infile with inspect (getline infile) := {
    | exist _ None _ => []
    | exist _ (Some (line, rest)) Hget => line :: stream_lines rest }.
Next Obligation. eapply getline_shorter; eassumption. Qed.

(** The loop body run over a list of lines; the first throw ends it. *)
Fixpoint parse_lines (lines : list string) (st : cursec_t * inifile)
    : result (cursec_t * inifile) :=
  match lines with
  | [] => ret st
  | line :: lines' =>
      match parse_line line st with
      | inl e => throw e
      | inr st' => parse_lines lines' st'
      end
  end.

(** ** The specification's reading of a document *)

(** What a well-formed line is: a section header or an entry. *)
Inductive token : Type :=
| THeader (name : string)
| TEntry (key value : string).

#[global] Instance token_eq_dec : EqDecision token.
Proof. solve_decision. Defined.

(** Steps 1 and 2 of the line parser: trim, then strip the comment. *)
Definition spec_prepare (line : string) : string :=
  private_.strip_comment (private_.trim line).

(** [s] without its last character, when that character is [c]. *)
Fixpoint spec_drop_last (c : ascii) (s : string) : option string :=
  match s with
  | EmptyString => None
  | String d EmptyString => if Ascii.eqb d c then Some EmptyString else None
  | String d s' => String d <$> spec_drop_last c s'
  end.

(** [s] cut at its first [c]: the text before it and the text after it. *)
Fixpoint spec_cut (c : ascii) (s : string) : option (string * string) :=
  match s with
  | EmptyString => None
  | String d s' =>
      if Ascii.eqb d c then Some (EmptyString, s')
      else prod_map (String d) id <$> spec_cut c s'
  end.

(** The outcome of one line under section 4.2 of the specification. *)
Inductive spec_outcome : Type :=
| SkipLine
| Token (t : token)
| MissingBracket (line : string)
| InvalidLine (line : string).

Definition spec_line (line : string) : spec_outcome :=
  match spec_prepare line with
  | EmptyString => SkipLine
  | String "[" body =>
      match spec_drop_last "]" body with
      | Some name => Token (THeader (private_.trim name))
      | None => MissingBracket (String "[" body)
      end
  | p =>
      match spec_cut "=" p with
      | Some (key, value) =>
          Token (TEntry (private_.trim key) (private_.trim value))
      | None => InvalidLine p
      end
  end.

(** The well-formed lines of a document, as tokens. *)
Definition spec_tokens (lines : list string) : list token :=
  omap (λ line, match spec_line line with Token t => Some t | _ => None end)
       lines.

(** A malformed line, in the words of section 7 of the specification:
    an unterminated section header, or an entry line without the ['=']
    delimiter. *)
Definition begins_with (c : ascii) (s : string) : Prop :=
  ∃ s', s = String c s'.
Definition ends_with (c : ascii) (s : string) : Prop :=
  ∃ s', s = s' +:+ String c EmptyString.
Definition contains (c : ascii) (s : string) : Prop :=
  ∃ s1 s2, s = s1 +:+ String c s2.

Definition malformed_line (line : string) : Prop :=
  let p := spec_prepare line in
  p ≠ EmptyString ∧
  ((begins_with "[" p ∧ ¬ ends_with "]" p) ∨
   (¬ begins_with "[" p ∧ ¬ contains "=" p)).

(** The text of the exception a malformed line is reported with. *)
Definition spec_syntax_message (line : string) : string :=
  let p := spec_prepare line in
  match p with
  | String "[" _ => "The section '" +:+ p +:+ "' is missing a closing bracket."
  | _ => "The line '" +:+ p +:+ "' is invalid."
  end.

(** An entry together with the section it belongs to: [None] is the
    default section. *)
Definition placed_entry : Type := option string * string * string.

(** Every entry belongs to the nearest header above it; [cur] is the
    section in force where the list starts. *)
Fixpoint spec_entries (cur : option string) (ts : list token)
    : list placed_entry :=
  match ts with
  | [] => []
  | THeader name :: ts' => spec_entries (Some name) ts'
  | TEntry key value :: ts' => (cur, key, value) :: spec_entries cur ts'
  end.

(** [value] is the last occurrence of [(sec, key)] among [es]. *)
Definition last_occurrence (sec : option string) (key value : string)
    (es : list placed_entry) : Prop :=
  ∃ es1 es2, es = es1 ++ (sec, key, value) :: es2 ∧
             ∀ value', (sec, key, value') ∉ es2.

(** The same, computed. *)
Fixpoint spec_last (sec : option string) (key : string)
    (es : list placed_entry) : option string :=
  match es with
  | [] => None
  | (s, k, v) :: es' =>
      match spec_last sec key es' with
      | Some v' => Some v'
      | None => if decide (s = sec ∧ k = key) then Some v else None
      end
  end.

(** The entries that come before any header. *)
Fixpoint spec_leading_entries (ts : list token) : list (string * string) :=
  match ts with
  | TEntry key value :: ts' => (key, value) :: spec_leading_entries ts'
  | _ => []
  end.

Definition is_entry (t : token) : Prop :=
  match t with TEntry _ _ => True | THeader _ => False end.

(** *** Comment stripping in the specification's words *)

(** [s] truncated at its first [c]. *)
Fixpoint spec_truncate (c : ascii) (s : string) : string :=
  match s with
  | EmptyString => EmptyString
  | String d s' =>
      if Ascii.eqb d c then EmptyString else String d (spec_truncate c s')
  end.

(** Of two strings, the one that is not longer. *)
Definition spec_shorter (a b : string) : string :=
  if Nat.leb (String.length a) (String.length b) then a else b.

(** *** Letter case *)

Definition to_lower_char (c : ascii) : ascii :=
  let n := nat_of_ascii c in
  if Nat.leb 65 n && Nat.leb n 90 then ascii_of_nat (n + 32) else c.

Fixpoint to_lower (s : string) : string :=
  match s with
  | EmptyString => EmptyString
  | String c s' => String (to_lower_char c) (to_lower s')
  end.

(** [s] is [t] up to the case of its letters. *)
Definition case_variant (s t : string) : Prop := to_lower s = to_lower t.

(** Every character of [s] is white space. *)
Fixpoint all_whitespace (s : string) : Prop :=
  match s with
  | EmptyString => True
  | String c s' => std_string.mem c private_.whitespace = true ∧ all_whitespace s'
  end.

(** *** The store a token list builds *)

(** The effect of one well-formed line on the constructor's state. *)
Definition apply_token (t : token) (st : cursec_t * inifile)
    : cursec_t * inifile :=
  match t with
  | THeader name => (Some name, sections_index name st.2)
  | TEntry key value => (st.1, cursec_assign st.1 key value st.2)
  end.

(** The effect of one line, by its outcome. *)
Definition spec_step (o : spec_outcome) (st : cursec_t * inifile)
    : result (cursec_t * inifile) :=
  match o with
  | SkipLine => ret st
  | Token t => ret (apply_token t st)
  | MissingBracket p =>
      throw (syntax_error ("The section '" +:+ p +:+
                           "' is missing a closing bracket."))
  | InvalidLine p =>
      throw (syntax_error ("The line '" +:+ p +:+ "' is invalid."))
  end.

(** [cursec] points at a map that exists. *)
Definition cursec_valid (st : cursec_t * inifile) : Prop :=
  ∀ name, st.1 = Some name → is_Some (sections_ st.2 !! name).

(** The value bound to [(sec, key)] in a store; [None] is the default
    section. *)
Definition store_lookup (ini : inifile) (sec : option string) (key : string)
    : option string :=
  match sec with
  | None => defaultsection_ ini !! key
  | Some name => sections_ ini !! name ≫= (.!! key)
  end.

(** An outcome that ends the parse. *)
Definition is_malformed (o : spec_outcome) : Prop :=
  match o with
  | MissingBracket _ | InvalidLine _ => True
  | SkipLine | Token _ => False
  end.

(** The entries of the default section, as placed entries. *)
Definition default_placed (l : list (string * string)) : list placed_entry :=
  map (λ kv, (None, kv.1, kv.2)) l.

(** *** Documents used as examples *)

(** The newline character, as a string. *)
Definition LF : string := String "010" EmptyString.

(** [k=1\n[a]\nk=2] *)
Definition doc_default_section : string :=
  "k=1" +:+ LF +:+ "[a]" +:+ LF +:+ "k=2".

(** [[a]\nk=1\n[b]\nx=0\n[a]\nk=2\nj=3] *)
Definition doc_repeated_header : string :=
  "[a]" +:+ LF +:+ "k=1" +:+ LF +:+ "[b]" +:+ LF +:+ "x=0" +:+ LF +:+
  "[a]" +:+ LF +:+ "k=2" +:+ LF +:+ "j=3".

(** [[a]\nf=TRUE] *)
Definition doc_upper_true : string := "[a]" +:+ LF +:+ "f=TRUE".

(** [[a]\nn=42\nflag=notabool\nf=TRUE\ng=False\nt=true] *)
Definition doc_typed : string :=
  "[a]" +:+ LF +:+ "n=42" +:+ LF +:+ "flag=notabool" +:+ LF +:+
  "f=TRUE" +:+ LF +:+ "g=False" +:+ LF +:+ "t=true".

(** The store of a document that parses (the empty store otherwise);
    used to name the store of an example document. *)
Definition store_of (infile : string) : inifile :=
  match inifile_ctor infile with
  | inr ini => ini
  | inl _ => mk_inifile ∅ ∅
  end.

(** ** Definitions for the further properties *)

(** *** Character sets *)

(** Every character of [s] is in the set [set]. *)
Fixpoint all_in (set s : string) : Prop :=
  match s with
  | EmptyString => True
  | String c s' => std_string.mem c set = true ∧ all_in set s'
  end.

(** No character of [s] is in the set [set]. *)
Fixpoint none_in (set s : string) : Prop :=
  match s with
  | EmptyString => True
  | String c s' => std_string.mem c set = false ∧ none_in set s'
  end.

(** [s] begins with a character of [set]. *)
Definition starts_in (set s : string) : Prop :=
  ∃ c r, s = String c r ∧ std_string.mem c set = true.

(** [s] ends with a character of [set]. *)
Definition ends_in (set s : string) : Prop :=
  ∃ r c, s = r +:+ String c EmptyString ∧ std_string.mem c set = true.

(** The section in force after the tokens [ts], starting from [cur]. *)
Definition last_header (cur : option string) (ts : list token)
    : option string :=
  foldl (λ cur t, match t with THeader name => Some name | TEntry _ _ => cur end)
        cur ts.

(** *** Clean text *)

(** The text a stored key can be. *)
Definition clean_key (key : string) : Prop :=
  private_.trim key = key ∧
  std_string.mem "#" key = false ∧ std_string.mem ";" key = false ∧
  std_string.mem "=" key = false ∧ std_string.mem "010" key = false ∧
  ¬ begins_with "[" key.

(** The text a stored value or a section name can be. *)
Definition clean_text (s : string) : Prop :=
  private_.trim s = s ∧
  std_string.mem "#" s = false ∧ std_string.mem ";" s = false ∧
  std_string.mem "010" s = false.

(** The text before the ['='] of an entry line once the white space
    in front of it is gone. *)
Definition entry_head (key w2 : string) : string :=
  match key with EmptyString => EmptyString | _ => key +:+ w2 end.

Local Close Scope char_scope.

(** * Lemmas *)

Lemma parse_loop_lines infile :
  ∀ st, parse_loop infile st = parse_lines (stream_lines infile) st.
Proof.
  remember (String.length infile) as n eqn:Hn.
  revert infile Hn.
  induction n as [n IH] using lt_wf_ind. intros infile Hn st.
  rewrite parse_loop_equation_1, stream_lines_equation_1.
  generalize (inspect (getline infile)). intros [[[line rest]|] Hget]; simpl.
  - destruct (parse_line line st) as [e|st']; simpl; [done|].
    eapply IH; [|done]. subst n. by eapply getline_shorter.
  - done.
Qed.

Lemma stream_lines_empty : stream_lines EmptyString = [].
Proof. by rewrite stream_lines_equation_1. Qed.

Lemma stream_lines_cons c infile :
  stream_lines (String c infile) =
  (read_line (String c infile)).1 :: stream_lines (read_line (String c infile)).2.
Proof.
  rewrite stream_lines_equation_1.
  generalize (inspect (getline (String c infile))).
  intros [[[line rest]|] Hget]; simpl.
  - unfold getline in Hget. injection Hget as Hget. by rewrite Hget.
  - discriminate.
Qed.

(** ** Facts about [std::string] members *)

Lemma string_app_nil_l s : EmptyString +:+ s = s.
Proof. reflexivity. Qed.

Lemma string_app_cons c s t : String c s +:+ t = String c (s +:+ t).
Proof. reflexivity. Qed.

Lemma string_app_nil_r s : s +:+ EmptyString = s.
Proof.
  induction s as [|c s IH]; [done|]. by rewrite string_app_cons, IH.
Qed.

Lemma string_app_assoc s t u : (s +:+ t) +:+ u = s +:+ t +:+ u.
Proof.
  induction s as [|c s IH]; [done|]. by rewrite !string_app_cons, IH.
Qed.

Lemma string_app_length s t :
  String.length (s +:+ t) = String.length s + String.length t.
Proof.
  induction s as [|c s IH]; [done|]. rewrite string_app_cons. simpl.
  by rewrite IH.
Qed.

Lemma substring_0_length s : String.substring 0 (String.length s) s = s.
Proof. induction s as [|c s IH]; simpl; [done|by rewrite IH]. Qed.

Lemma substring_0_app s t : String.substring 0 (String.length s) (s +:+ t) = s.
Proof.
  induction s as [|c s IH]; [by destruct t|].
  rewrite string_app_cons. simpl. by rewrite IH.
Qed.

Lemma spec_drop_last_Some c body name :
  spec_drop_last c body = Some name → body = name +:+ String c EmptyString.
Proof.
  revert name. induction body as [|d body IH]; intros name; simpl; [done|].
  destruct body as [|e body].
  - destruct (Ascii.eqb_spec d c); [|done]. intros [= <-]. by subst.
  - destruct (spec_drop_last c (String e body)) as [name'|] eqn:Hd; [|done].
    intros [= <-]. rewrite string_app_cons. f_equal. by apply IH.
Qed.

Lemma spec_drop_last_app c name :
  spec_drop_last c (name +:+ String c EmptyString) = Some name.
Proof.
  induction name as [|d name IH].
  - rewrite string_app_nil_l. simpl. by rewrite Ascii.eqb_refl.
  - rewrite string_app_cons. simpl. rewrite IH.
    destruct (name +:+ String c EmptyString) eqn:E; [|done].
    destruct name; discriminate.
Qed.

Lemma get_last_app d name c :
  String.get (String.length (name +:+ String c EmptyString))
             (String d (name +:+ String c EmptyString)) = Some c.
Proof.
  revert d. induction name as [|e name IH]; intros d; [done|].
  rewrite string_app_cons. apply IH.
Qed.

Lemma get_last_None c d body :
  spec_drop_last c body = None → body ≠ EmptyString →
  char_is (String.get (String.length body) (String d body)) c = false.
Proof.
  revert d. induction body as [|e body IH]; intros d; [done|].
  intros Hd _. simpl in Hd. destruct body as [|f body].
  - simpl. by destruct (Ascii.eqb e c).
  - change (String.get (String.length (String e (String f body)))
                       (String d (String e (String f body))))
      with (String.get (String.length (String f body)) (String e (String f body))).
    apply IH; [|done].
    by destruct (spec_drop_last c (String f body)).
Qed.

Lemma split_eq_spec_cut c s :
  private_.split s (String c EmptyString) = spec_cut c s.
Proof.
  unfold private_.split, std_string.find, std_string.substr, std_string.size.
  induction s as [|d s IH]; simpl; [done|].
  destruct (ascii_dec c d) as [->|Hne].
  - rewrite Ascii.eqb_refl. simpl.
    replace (String.prefix EmptyString s) with true by (by destruct s).
    simpl. rewrite Nat.sub_0_r, substring_0_length. reflexivity.
  - destruct (Ascii.eqb_spec d c) as [->|_]; [done|].
    rewrite <- IH.
    by destruct (String.index 0 (String c EmptyString) s) as [n|].
Qed.

(** ** The loop body against the specification's line parser *)

Lemma spec_line_blank line :
  spec_prepare line = EmptyString → spec_line line = SkipLine.
Proof. unfold spec_line. by intros ->. Qed.

Lemma spec_line_bracket line body :
  spec_prepare line = String "[" body →
  spec_line line =
  match spec_drop_last "]" body with
  | Some name => Token (THeader (private_.trim name))
  | None => MissingBracket (String "[" body)
  end.
Proof. unfold spec_line. by intros ->. Qed.

Lemma spec_line_other line c body :
  spec_prepare line = String c body → c ≠ "["%char →
  spec_line line =
  match spec_cut "=" (String c body) with
  | Some (key, value) =>
      Token (TEntry (private_.trim key) (private_.trim value))
  | None => InvalidLine (String c body)
  end.
Proof.
  unfold spec_line. intros -> Hc.
  destruct c as [[] [] [] [] [] [] [] []]; try reflexivity. done.
Qed.

Lemma parse_line_spec line st :
  parse_line line st = spec_step (spec_line line) st.
Proof.
  destruct st as [cursec ini]. unfold parse_line, spec_step, apply_token.
  fold (spec_prepare line).
  destruct (spec_prepare line) as [|c body] eqn:Hp.
  { by rewrite (spec_line_blank _ Hp). }
  unfold std_string.at_, std_string.size, std_string.substr.
  cbn [string_empty].
  change (String.get 0 (String c body)) with (Some c).
  change (String.length (String c body)) with (S (String.length body)).
  replace (S (String.length body) - 1) with (String.length body) by lia.
  cbn [char_is].
  destruct (Ascii.eqb_spec c "[") as [->|Hc].
  - rewrite (spec_line_bracket _ _ Hp).
    destruct (spec_drop_last "]" body) as [name|] eqn:Hd.
    + apply spec_drop_last_Some in Hd. subst body.
      rewrite get_last_app. cbn [char_is Ascii.eqb Bool.eqb negb].
      replace (S (String.length (name +:+ String "]" EmptyString)) - 2)
        with (String.length name)
        by (rewrite string_app_length; simpl; lia).
      cbn [String.substring]. by rewrite substring_0_app.
    + destruct body as [|d body]; [done|].
      by rewrite (get_last_None "]" "[" (String d body) Hd).
  - rewrite (spec_line_other _ _ _ Hp Hc), split_eq_spec_cut.
    by destruct (spec_cut "=" (String c body)) as [[key value]|].
Qed.

(** ** Malformed lines *)

Lemma ends_with_drop_last c d body :
  d ≠ c →
  ends_with c (String d body) ↔ is_Some (spec_drop_last c body).
Proof.
  intros Hdc. split.
  - intros [s' Hs']. destruct s' as [|e s'].
    + rewrite string_app_nil_l in Hs'. congruence.
    + rewrite string_app_cons in Hs'. injection Hs' as _ ->.
      rewrite spec_drop_last_app. by eexists.
  - intros [name Hname]. apply spec_drop_last_Some in Hname. subst body.
    by exists (String d name).
Qed.

Lemma contains_spec_cut c s : contains c s ↔ is_Some (spec_cut c s).
Proof.
  split.
  - intros (s1 & s2 & ->). induction s1 as [|d s1 IH].
    + rewrite string_app_nil_l. simpl. rewrite Ascii.eqb_refl. by eexists.
    + rewrite string_app_cons. simpl. destruct (Ascii.eqb d c); [by eexists|].
      destruct IH as [[k v] ->]. by eexists.
  - induction s as [|d s IH]; simpl; [by intros [? [=]]|].
    destruct (Ascii.eqb_spec d c) as [->|Hne].
    + intros _. by exists EmptyString, s.
    + intros [[k v] Hkv].
      destruct (spec_cut c s) as [[k' v']|]; [|done].
      destruct IH as (s1 & s2 & ->); [by eexists|].
      by exists (String d s1), s2.
Qed.

Lemma malformed_line_outcome line :
  malformed_line line ↔ is_malformed (spec_line line).
Proof.
  unfold malformed_line. cbv zeta.
  destruct (spec_prepare line) as [|c body] eqn:Hp.
  { rewrite (spec_line_blank _ Hp). simpl. split; [by intros [? _]|done]. }
  destruct (decide (c = "["%char)) as [->|Hc].
  - rewrite (spec_line_bracket _ _ Hp).
    pose proof (ends_with_drop_last "]" "[" body) as Hend.
    destruct (spec_drop_last "]" body) as [name|]; simpl.
    + split; [|done]. intros (_ & [[_ Hn]|[Hn _]]).
      * apply Hn, Hend; [done|by eexists].
      * apply Hn. by eexists.
    + split; [done|]. intros _. split; [done|]. left. split; [by eexists|].
      intros He. apply Hend in He; [|done]. by destruct He.
  - rewrite (spec_line_other _ _ _ Hp Hc).
    pose proof (contains_spec_cut "=" (String c body)) as Hcut.
    destruct (spec_cut "=" (String c body)) as [[k v]|]; simpl.
    + split; [|done]. intros (_ & [[[s' Hb] _]|[_ Hn]]).
      * congruence.
      * apply Hn, Hcut. by eexists.
    + split; [done|]. intros _. split; [done|]. right. split.
      * intros [s' Hb]. congruence.
      * intros Hn. apply Hcut in Hn. by destruct Hn.
Qed.

Lemma malformed_line_dec line : Decision (malformed_line line).
Proof.
  destruct (spec_line line) eqn:Ho;
    [right|right|left|left]; rewrite malformed_line_outcome, Ho; simpl; tauto.
Defined.

Lemma spec_syntax_message_outcome line :
  match spec_line line with
  | MissingBracket p =>
      spec_syntax_message line =
      "The section '" +:+ p +:+ "' is missing a closing bracket."
  | InvalidLine p =>
      spec_syntax_message line = "The line '" +:+ p +:+ "' is invalid."
  | _ => True
  end.
Proof.
  unfold spec_syntax_message. cbv zeta.
  destruct (spec_prepare line) as [|c body] eqn:Hp.
  { by rewrite (spec_line_blank _ Hp). }
  destruct (decide (c = "["%char)) as [->|Hc].
  - rewrite (spec_line_bracket _ _ Hp).
    by destruct (spec_drop_last "]" body).
  - rewrite (spec_line_other _ _ _ Hp Hc).
    destruct (spec_cut "=" (String c body)) as [[k v]|]; [done|].
    destruct c as [[] [] [] [] [] [] [] []]; try reflexivity. done.
Qed.

Lemma parse_line_malformed line st :
  malformed_line line →
  parse_line line st = throw (syntax_error (spec_syntax_message line)).
Proof.
  rewrite malformed_line_outcome, parse_line_spec.
  pose proof (spec_syntax_message_outcome line) as Hm.
  destruct (spec_line line); simpl; try done; intros _; by rewrite Hm.
Qed.

Lemma parse_line_well_formed line st :
  ¬ malformed_line line → ∃ st', parse_line line st = ret st'.
Proof.
  rewrite malformed_line_outcome, parse_line_spec.
  destruct (spec_line line); simpl; try done; intros _; by eexists.
Qed.

Lemma parse_lines_well_formed lines st :
  Forall (λ line, ¬ malformed_line line) lines →
  ∃ st', parse_lines lines st = ret st'.
Proof.
  intros Hall. revert st. induction Hall as [|line lines Hl _ IH]; intros st.
  - by eexists.
  - simpl. destruct (parse_line_well_formed line st Hl) as [st' ->]. apply IH.
Qed.

Lemma parse_lines_first_malformed before line after st :
  Forall (λ line, ¬ malformed_line line) before →
  malformed_line line →
  parse_lines (before ++ line :: after) st =
  throw (syntax_error (spec_syntax_message line)).
Proof.
  intros Hall Hbad. revert st.
  induction Hall as [|l before Hl _ IH]; intros st; simpl.
  - by rewrite (parse_line_malformed _ _ Hbad).
  - destruct (parse_line_well_formed l st Hl) as [st' ->]. apply IH.
Qed.

(** Every list of lines is all well formed, or splits at its first
    malformed line. *)
Lemma first_malformed lines :
  Forall (λ line, ¬ malformed_line line) lines ∨
  ∃ before line after,
    lines = before ++ line :: after ∧
    Forall (λ line, ¬ malformed_line line) before ∧ malformed_line line.
Proof.
  induction lines as [|l lines IH]; [by left|].
  destruct (malformed_line_dec l) as [Hbad|Hok].
  - right. by exists [], l, lines.
  - destruct IH as [Hall|(before & line & after & -> & Hb & Hl)].
    + left. by constructor.
    + right. exists (l :: before), line, after. split_and!; [done| |done].
      by constructor.
Qed.

Lemma inifile_ctor_lines infile :
  inifile_ctor infile =
  match parse_lines (stream_lines infile) (None, mk_inifile ∅ ∅) with
  | inl e => throw e
  | inr (_, ini) => ret ini
  end.
Proof. unfold inifile_ctor. by rewrite parse_loop_lines. Qed.

Lemma inifile_ctor_malformed infile line :
  line ∈ stream_lines infile → malformed_line line →
  ∃ msg, inifile_ctor infile = throw (syntax_error msg).
Proof.
  intros Hin Hbad.
  destruct (first_malformed (stream_lines infile))
    as [Hall|(before & l & after & Hl & Hb & Hm)].
  - rewrite Forall_forall in Hall. by destruct (Hall line Hin).
  - rewrite inifile_ctor_lines, Hl.
    rewrite (parse_lines_first_malformed _ _ _ _ Hb Hm). by eexists.
Qed.

(** ** The store built from the tokens of a document *)

Lemma parse_lines_tokens lines st st' :
  parse_lines lines st = ret st' →
  st' = foldl (flip apply_token) st (spec_tokens lines).
Proof.
  revert st. induction lines as [|line lines IH]; intros st; simpl.
  - by intros [= ->].
  - rewrite parse_line_spec. unfold spec_tokens. cbn [omap list_omap].
    fold (spec_tokens lines).
    destruct (spec_line line) as [|t|p|p]; simpl; try done; apply IH.
Qed.

Lemma spec_last_elem sec key es value :
  spec_last sec key es = Some value → (sec, key, value) ∈ es.
Proof.
  induction es as [|[[s k] v] es IH]; simpl; [done|].
  destruct (spec_last sec key es) as [v'|].
  - intros [= ->]. right. by apply IH.
  - destruct (decide (s = sec ∧ k = key)) as [[-> ->]|Hne]; [|done].
    intros [= ->]. left.
Qed.

Lemma spec_last_None sec key es :
  spec_last sec key es = None ↔ ∀ value, (sec, key, value) ∉ es.
Proof.
  induction es as [|[[s k] v] es IH]; simpl.
  - split; [|done]. intros _ value. apply not_elem_of_nil.
  - destruct (spec_last sec key es) as [v'|] eqn:Hl.
    + split; [done|]. intros Hn. exfalso. apply (Hn v'). right.
      by apply spec_last_elem.
    + destruct (decide (s = sec ∧ k = key)) as [[-> ->]|Hne].
      * split; [done|]. intros Hn. exfalso. apply (Hn v). left.
      * split; [|done]. intros _ value [Hin|Hin]%elem_of_cons.
        -- apply Hne. by injection Hin as -> -> _.
        -- by apply (proj1 IH eq_refl value).
Qed.

Lemma spec_last_Some sec key es value :
  spec_last sec key es = Some value ↔ last_occurrence sec key value es.
Proof.
  unfold last_occurrence. split.
  - revert value. induction es as [|[[s k] v] es IH]; intros value; simpl; [done|].
    destruct (spec_last sec key es) as [v'|] eqn:Hl.
    + intros [= ->]. destruct (IH value eq_refl) as (es1 & es2 & -> & Hn).
      by exists ((s, k, v) :: es1), es2.
    + destruct (decide (s = sec ∧ k = key)) as [[-> ->]|Hne]; [|done].
      intros [= ->]. exists [], es. split; [done|]. by apply spec_last_None.
  - intros (es1 & es2 & -> & Hn). induction es1 as [|[[s k] v] es1 IH]; simpl.
    + rewrite (proj2 (spec_last_None sec key es2) Hn).
      by rewrite decide_True.
    + by rewrite IH.
Qed.

Lemma sections_index_lookup name ini sec key :
  store_lookup (sections_index name ini) sec key = store_lookup ini sec key.
Proof.
  unfold sections_index.
  destruct (sections_ ini !! name) as [kv|] eqn:Hn; [done|].
  destruct sec as [s|]; simpl; [|done].
  destruct (decide (name = s)) as [->|Hne].
  - by rewrite lookup_insert_eq, Hn.
  - by rewrite lookup_insert_ne.
Qed.

Lemma sections_index_declared name ini s :
  is_Some (sections_ (sections_index name ini) !! s) ↔
  is_Some (sections_ ini !! s) ∨ s = name.
Proof.
  unfold sections_index.
  destruct (sections_ ini !! name) as [kv|] eqn:Hn; simpl.
  - split; [by left|]. intros [?| ->]; [done|by eexists].
  - destruct (decide (name = s)) as [->|Hne].
    + rewrite lookup_insert_eq. split; [by right|by eexists].
    + rewrite lookup_insert_ne by done. split; [by left|].
      by intros [?| ->].
Qed.

Lemma cursec_assign_lookup cur k v ini sec key :
  cursec_valid (cur, ini) →
  store_lookup (cursec_assign cur k v ini) sec key =
  if decide (cur = sec ∧ k = key) then Some v else store_lookup ini sec key.
Proof.
  intros Hvalid. destruct (decide (cur = sec ∧ k = key)) as [[<- <-]|Hne].
  - destruct cur as [name|]; unfold store_lookup, cursec_assign;
      cbn [sections_ defaultsection_].
    + destruct (Hvalid name eq_refl) as [kv Hkv]. cbn [fst snd] in Hkv.
      rewrite lookup_alter_eq, Hkv. cbn. apply lookup_insert_eq.
    + apply lookup_insert_eq.
  - destruct cur as [name|], sec as [s|]; unfold store_lookup, cursec_assign;
      cbn [sections_ defaultsection_]; try done.
    + destruct (decide (name = s)) as [->|Hs].
      * destruct (Hvalid s eq_refl) as [kv Hkv]. cbn [fst snd] in Hkv.
        rewrite lookup_alter_eq, Hkv. cbn. apply lookup_insert_ne.
        intros ->. by apply Hne.
      * by rewrite lookup_alter_ne.
    + apply lookup_insert_ne. intros ->. by apply Hne.
Qed.

Lemma cursec_assign_declared cur k v ini s :
  is_Some (sections_ (cursec_assign cur k v ini) !! s) ↔
  is_Some (sections_ ini !! s).
Proof.
  destruct cur as [name|]; simpl; [|done].
  rewrite lookup_alter. destruct (decide (name = s)) as [->|Hne]; [|done].
  by rewrite fmap_is_Some.
Qed.

Lemma apply_token_valid t st : cursec_valid st → cursec_valid (apply_token t st).
Proof.
  intros Hvalid. destruct t as [name|k v]; intros n; simpl.
  - intros [= <-]. apply sections_index_declared. by right.
  - intros Hn. apply cursec_assign_declared. by apply Hvalid.
Qed.

Lemma foldl_tokens_store ts st :
  cursec_valid st →
  cursec_valid (foldl (flip apply_token) st ts) ∧
  (∀ sec key,
     store_lookup (foldl (flip apply_token) st ts).2 sec key =
     from_option Some (store_lookup st.2 sec key)
                 (spec_last sec key (spec_entries st.1 ts))) ∧
  (∀ s, is_Some (sections_ (foldl (flip apply_token) st ts).2 !! s) ↔
        is_Some (sections_ st.2 !! s) ∨ THeader s ∈ ts).
Proof.
  revert st. induction ts as [|t ts IH]; intros st Hvalid.
  - simpl. split_and!; [done|done|]. intros s. split; [by left|].
    intros [?|Hin]; [done|]. by apply elem_of_nil in Hin.
  - cbn [foldl]. unfold flip at 2.
    destruct (IH _ (apply_token_valid t st Hvalid)) as (Hv & Hl & Hd).
    split_and!; [done| |].
    + intros sec key. rewrite Hl. destruct st as [cur ini].
      destruct t as [name|k v]; cbn [apply_token spec_entries fst snd].
      * by rewrite sections_index_lookup.
      * cbn [spec_last]. rewrite (cursec_assign_lookup _ _ _ _ _ _ Hvalid).
        destruct (spec_last sec key (spec_entries cur ts)); [done|].
        cbn [from_option]. repeat case_decide; done || tauto.
    + intros s. rewrite Hd. destruct t as [name|k v]; cbn [apply_token snd].
      * rewrite sections_index_declared, elem_of_cons.
        split; [intros [[?| ->]|?]|intros [?|[[= ->]|?]]]; tauto.
      * rewrite cursec_assign_declared, elem_of_cons.
        split; [intros [?|?]|intros [?|[[=]|?]]]; tauto.
Qed.

(** What a successful construction leaves in the store. *)
Lemma inifile_ctor_store infile ini :
  inifile_ctor infile = ret ini →
  (∀ sec key,
     store_lookup ini sec key =
     spec_last sec key (spec_entries None (spec_tokens (stream_lines infile)))) ∧
  (∀ s, is_Some (sections_ ini !! s) ↔
        THeader s ∈ spec_tokens (stream_lines infile)).
Proof.
  rewrite inifile_ctor_lines.
  destruct (parse_lines (stream_lines infile) (None, mk_inifile ∅ ∅))
    as [e|[cur ini']] eqn:Hp; [done|].
  intros [= ->]. apply parse_lines_tokens in Hp.
  destruct (foldl_tokens_store (spec_tokens (stream_lines infile))
              (None, mk_inifile ∅ ∅)) as (_ & Hl & Hd); [done|].
  rewrite <- Hp in Hl, Hd. simpl in Hl, Hd. split.
  - intros sec key. rewrite Hl.
    destruct (spec_last _ _ _); [done|]. simpl.
    destruct sec; simpl; by rewrite lookup_empty.
  - intros s. rewrite Hd, lookup_empty. split; [intros [[? [=]]|?]|]; tauto.
Qed.

(** ** Where the entries of a token list are placed *)

Lemma spec_entries_label cur ts sec key value :
  (sec, key, value) ∈ spec_entries cur ts →
  sec = cur ∨ ∃ name, sec = Some name ∧ THeader name ∈ ts.
Proof.
  revert cur. induction ts as [|[name|k v] ts IH]; intros cur; simpl.
  - by intros ?%elem_of_nil.
  - intros Hin. right. destruct (IH _ Hin) as [->|(n & -> & Hn)].
    + exists name. split; [done|left].
    + exists n. split; [done|by right].
  - intros [[= -> -> ->]|Hin]%elem_of_cons; [by left|].
    destruct (IH _ Hin) as [->|(n & -> & Hn)]; [by left|].
    right. exists n. split; [done|by right].
Qed.

Lemma spec_entries_token cur ts sec key value :
  (sec, key, value) ∈ spec_entries cur ts → TEntry key value ∈ ts.
Proof.
  revert cur. induction ts as [|[name|k v] ts IH]; intros cur; simpl.
  - by intros ?%elem_of_nil.
  - intros Hin. right. by eapply IH.
  - intros [[= -> -> ->]|Hin]%elem_of_cons; [left|right; by eapply IH].
Qed.

Lemma spec_last_leading key ts :
  spec_last None key (spec_entries None ts) =
  spec_last None key (default_placed (spec_leading_entries ts)).
Proof.
  induction ts as [|[name|k v] ts IH]; simpl; [done| |].
  - apply spec_last_None. intros value Hin.
    apply spec_entries_label in Hin as [[=]|(n & [=] & _)].
  - by rewrite IH.
Qed.

Lemma spec_entries_after_header cur ts1 name rest e :
  e ∈ spec_entries (Some name) rest →
  e ∈ spec_entries cur (ts1 ++ THeader name :: rest).
Proof.
  revert cur. induction ts1 as [|[n|k v] ts1 IH]; intros cur Hin; simpl.
  - done.
  - by apply IH.
  - right. by apply IH.
Qed.

Lemma spec_entries_run cur mid key value ts2 :
  Forall is_entry mid →
  (cur, key, value) ∈ spec_entries cur (mid ++ TEntry key value :: ts2).
Proof.
  induction 1 as [|[n|k v] mid Ht _ IH]; simpl.
  - left.
  - done.
  - by right.
Qed.

Lemma spec_entries_origin cur ts name key value :
  (Some name, key, value) ∈ spec_entries cur ts →
  (cur = Some name ∧
   ∃ mid ts2, ts = mid ++ TEntry key value :: ts2 ∧ Forall is_entry mid) ∨
  (∃ ts1 mid ts2,
     ts = ts1 ++ THeader name :: mid ++ TEntry key value :: ts2 ∧
     Forall is_entry mid).
Proof.
  revert cur. induction ts as [|[n|k v] ts IH]; intros cur; simpl.
  - by intros ?%elem_of_nil.
  - intros Hin. right.
    destruct (IH _ Hin) as [([= ->] & mid & ts2 & -> & Hmid)
                           |(ts1 & mid & ts2 & -> & Hmid)].
    + by exists [], mid, ts2.
    + by exists (THeader n :: ts1), mid, ts2.
  - intros [[= <- -> ->]|Hin]%elem_of_cons.
    + left. split; [done|]. by exists [], ts.
    + destruct (IH _ Hin) as [(-> & mid & ts2 & -> & Hmid)
                             |(ts1 & mid & ts2 & -> & Hmid)].
      * left. split; [done|]. exists (TEntry k v :: mid), ts2.
        split; [done|]. by constructor.
      * right. by exists (TEntry k v :: ts1), mid, ts2.
Qed.

Lemma spec_tokens_elem t lines :
  t ∈ spec_tokens lines ↔ ∃ line, line ∈ lines ∧ spec_line line = Token t.
Proof.
  unfold spec_tokens. rewrite list_elem_of_omap. split.
  - intros (line & Hin & Ht). exists line. split; [done|].
    destruct (spec_line line); congruence.
  - intros (line & Hin & Ht). exists line. split; [done|]. by rewrite Ht.
Qed.

(** ** The accessors read the store *)

Lemma get_store_lookup ini sec key value :
  get ini sec key = ret value ↔ store_lookup ini (Some sec) key = Some value.
Proof.
  unfold get, store_lookup, ret, throw.
  destruct (sections_ ini !! sec) as [kv|]; simpl; [|by split].
  destruct (kv !! key); simpl; [|by split]. split; congruence.
Qed.

Lemma get1_store_lookup ini key value :
  get1 ini key = ret value ↔ store_lookup ini None key = Some value.
Proof.
  unfold get1, store_lookup, ret, throw.
  destruct (defaultsection_ ini !! key); simpl; [|by split]. split; congruence.
Qed.

(** * The properties of the specification *)

(** ** C1: syntax errors *)

(** C1.  The constructor fails with a syntax error exactly when some
    line of the document, trimmed and then stripped of its comment, is
    non-empty and either begins with '[' without ending with ']' or does
    not begin with '[' and has no '='.  The parse stops at the first
    such line: the exception is the one of that line whatever follows it,
    and a failed construction returns no store. *)
Theorem inifile_ctor_syntax_error (infile : string) :
  ((∃ msg, inifile_ctor infile = throw (syntax_error msg)) ↔
   Exists malformed_line (stream_lines infile)) ∧
  (∀ e, inifile_ctor infile = throw e →
     ∃ before line after,
       stream_lines infile = before ++ line :: after ∧
       Forall (λ l, ¬ malformed_line l) before ∧
       malformed_line line ∧
       e = syntax_error (spec_syntax_message line)) ∧
  (∀ before line after,
     stream_lines infile = before ++ line :: after →
     Forall (λ l, ¬ malformed_line l) before →
     malformed_line line →
     inifile_ctor infile = throw (syntax_error (spec_syntax_message line))) ∧
  ((∃ ini, inifile_ctor infile = ret ini) ↔
   Forall (λ l, ¬ malformed_line l) (stream_lines infile)).
Proof.
  assert (Hthrow : ∀ before line after,
    stream_lines infile = before ++ line :: after →
    Forall (λ l, ¬ malformed_line l) before →
    malformed_line line →
    inifile_ctor infile = throw (syntax_error (spec_syntax_message line))).
  { intros before line after Hl Hb Hm.
    rewrite inifile_ctor_lines, Hl.
    by rewrite (parse_lines_first_malformed _ _ _ _ Hb Hm). }
  assert (Hret : Forall (λ l, ¬ malformed_line l) (stream_lines infile) →
                 ∃ ini, inifile_ctor infile = ret ini).
  { intros Hall. rewrite inifile_ctor_lines.
    destruct (parse_lines_well_formed _ (None, mk_inifile ∅ ∅) Hall)
      as [[cur ini] ->]. by eexists. }
  destruct (first_malformed (stream_lines infile))
    as [Hall|(before & line & after & Hl & Hb & Hm)].
  - destruct (Hret Hall) as [ini Hini]. split_and!.
    + split.
      * intros [msg Hmsg]. rewrite Hini in Hmsg. discriminate.
      * intros Hex. apply Exists_exists in Hex as (l & Hin & Hbad).
        rewrite Forall_forall in Hall. by destruct (Hall l Hin).
    + intros e He. rewrite Hini in He. discriminate.
    + done.
    + done.
  - pose proof (Hthrow _ _ _ Hl Hb Hm) as He. split_and!.
    + split; [|by eexists]. intros _. apply Exists_exists. exists line.
      split; [|done]. rewrite Hl. apply elem_of_app. right. left.
    + intros e He'. rewrite He in He'. injection He' as <-.
      by exists before, line, after.
    + done.
    + split.
      * intros [ini Hini]. rewrite He in Hini. discriminate.
      * intros Hall. rewrite Forall_forall in Hall. destruct (Hall line); [|done].
        rewrite Hl. apply elem_of_app. right. left.
Qed.

(** Section 8 of the specification: an unterminated header and a line
    without delimiter. *)
Example unterminated_header :
  inifile_ctor "[section" =
  throw (syntax_error "The section '[section' is missing a closing bracket.").
Proof. reflexivity. Qed.

Example missing_delimiter :
  inifile_ctor "justtext" =
  throw (syntax_error "The line 'justtext' is invalid.").
Proof. reflexivity. Qed.

(** ** C2: last write wins, repeated headers merge *)

(** C2.  After a successful parse, [get(section, key)] returns [value]
    exactly when [value] is the last occurrence of [key] among the
    entries the document places in [section], where an entry is placed
    in the section named by the nearest header above it, so that all
    occurrences of one header name feed one map (the default section
    likewise, for the entries above every header); and a header line
    whose name exists leaves the store as it is and makes that map
    current. *)
Theorem last_write_wins (infile : string) (ini : inifile) :
  inifile_ctor infile = ret ini →
  (∀ sec key value,
     get ini sec key = ret value ↔
     last_occurrence (Some sec) key value
       (spec_entries None (spec_tokens (stream_lines infile)))) ∧
  (∀ key value,
     get1 ini key = ret value ↔
     last_occurrence None key value
       (spec_entries None (spec_tokens (stream_lines infile)))) ∧
  (∀ line name cursec ini' kv,
     spec_line line = Token (THeader name) →
     sections_ ini' !! name = Some kv →
     parse_line line (cursec, ini') = ret (Some name, ini')).
Proof.
  intros Hctor. destruct (inifile_ctor_store _ _ Hctor) as [Hl _]. split_and!.
  - intros sec key value.
    by rewrite get_store_lookup, Hl, spec_last_Some.
  - intros key value.
    by rewrite get1_store_lookup, Hl, spec_last_Some.
  - intros line name cursec ini' kv Hline Hkv.
    rewrite parse_line_spec, Hline. cbn [spec_step apply_token snd].
    unfold sections_index. by rewrite Hkv.
Qed.

Lemma last_write_wins_witness :
  inifile_ctor doc_repeated_header = ret (store_of doc_repeated_header) ∧
  get (store_of doc_repeated_header) "a" "k" = ret "2" ∧
  get (store_of doc_repeated_header) "a" "j" = ret "3" ∧
  get (store_of doc_repeated_header) "b" "x" = ret "0".
Proof.
  assert (Hctor : inifile_ctor doc_repeated_header =
                  ret (store_of doc_repeated_header))
    by (vm_compute; reflexivity).
  split; [exact Hctor|].
  destruct (last_write_wins _ _ Hctor) as [Hlast _].
  split_and!; apply Hlast, spec_last_Some; vm_compute; reflexivity.
Defined.

(** Section 8 of the specification: [[a]\nk=1\nk=2] yields ["2"]. *)
Example example_overwrite :
  get (store_of ("[a]" +:+ LF +:+ "k=1" +:+ LF +:+ "k=2")) "a" "k" =
  ret "2".
Proof. vm_compute. reflexivity. Qed.

(** ** C3: the default section *)

(** C3.  After a successful parse, the one-argument [get(key)] returns
    the last occurrence of [key] among the entries that come before any
    header; a value found in a named section comes from an entry below a
    header of that name with no other header in between, and every such
    entry makes its key present in that section.  On [k=1\n[a]\nk=2],
    [get("k")] is ["1"] and [get("a","k")] is ["2"]. *)
Theorem default_section_entries :
  (∀ infile ini,
     inifile_ctor infile = ret ini →
     (∀ key value,
        get1 ini key = ret value ↔
        last_occurrence None key value
          (default_placed
             (spec_leading_entries (spec_tokens (stream_lines infile))))) ∧
     (∀ name key value,
        get ini name key = ret value →
        ∃ ts1 mid ts2,
          spec_tokens (stream_lines infile) =
            ts1 ++ THeader name :: mid ++ TEntry key value :: ts2 ∧
          Forall is_entry mid) ∧
     (∀ ts1 name mid key value ts2,
        spec_tokens (stream_lines infile) =
          ts1 ++ THeader name :: mid ++ TEntry key value :: ts2 →
        Forall is_entry mid →
        ∃ value', get ini name key = ret value')) ∧
  inifile_ctor doc_default_section = ret (store_of doc_default_section) ∧
  get1 (store_of doc_default_section) "k" = ret "1" ∧
  get (store_of doc_default_section) "a" "k" = ret "2".
Proof.
  split; [|by vm_compute].
  intros infile ini Hctor.
  destruct (inifile_ctor_store _ _ Hctor) as [Hl _]. split_and!.
  - intros key value.
    by rewrite get1_store_lookup, Hl, spec_last_leading, spec_last_Some.
  - intros name key value. rewrite get_store_lookup, Hl.
    intros Hin%spec_last_elem.
    by apply spec_entries_origin in Hin as [([=] & _)|?].
  - intros ts1 name mid key value ts2 Hts Hmid.
    destruct (spec_last (Some name) key
                (spec_entries None (spec_tokens (stream_lines infile))))
      as [value'|] eqn:Hlast.
    + exists value'. by rewrite get_store_lookup, Hl.
    + exfalso. rewrite spec_last_None in Hlast. apply (Hlast value).
      rewrite Hts. by apply spec_entries_after_header, spec_entries_run.
Qed.

Lemma default_section_entries_witness :
  inifile_ctor doc_default_section = ret (store_of doc_default_section) ∧
  ∀ key value,
    get1 (store_of doc_default_section) key = ret value ↔
    last_occurrence None key value
      (default_placed
         (spec_leading_entries
            (spec_tokens (stream_lines doc_default_section)))).
Proof.
  assert (Hctor : inifile_ctor doc_default_section =
                  ret (store_of doc_default_section))
    by (vm_compute; reflexivity).
  split; [exact Hctor|].
  destruct default_section_entries as [Hgeneral _].
  exact (proj1 (Hgeneral _ _ Hctor)).
Defined.

(** ** C4: unknown sections and unknown entries *)

Lemma get_cases ini sec key :
  match sections_ ini !! sec with
  | None => get ini sec key = throw (unknown_section_error sec)
  | Some kv =>
      match kv !! key with
      | None => get ini sec key = throw (unknown_entry_error sec key)
      | Some value => get ini sec key = ret value
      end
  end.
Proof.
  unfold get. destruct (sections_ ini !! sec) as [kv|]; [|done].
  by destruct (kv !! key).
Qed.

(** C4.  After a successful parse, [get(section, key)] throws an unknown
    section error exactly when no header of the document declares
    [section], throws an unknown entry error exactly when a header does
    but no entry of that section has [key], and otherwise returns the
    stored string; [section(name)] throws an unknown section error
    exactly when [name] is not declared and otherwise returns a handle
    whose [get] and [dget] are the store's for that name. *)
Theorem unknown_lookups (infile : string) (ini : inifile) :
  inifile_ctor infile = ret ini →
  (∀ sec key,
     (∃ e, get ini sec key = throw e ∧ is_unknown_section e = true) ↔
     THeader sec ∉ spec_tokens (stream_lines infile)) ∧
  (∀ sec key,
     (∃ e, get ini sec key = throw e ∧ is_unknown_entry e = true) ↔
     THeader sec ∈ spec_tokens (stream_lines infile) ∧
     ∀ value, (Some sec, key, value) ∉
              spec_entries None (spec_tokens (stream_lines infile))) ∧
  (∀ sec key,
     (∃ value, get ini sec key = ret value ∧
               store_lookup ini (Some sec) key = Some value) ↔
     THeader sec ∈ spec_tokens (stream_lines infile) ∧
     ∃ value, (Some sec, key, value) ∈
              spec_entries None (spec_tokens (stream_lines infile))) ∧
  (∀ name,
     (∃ e, section ini name = throw e ∧ is_unknown_section e = true) ↔
     THeader name ∉ spec_tokens (stream_lines infile)) ∧
  (∀ name,
     THeader name ∈ spec_tokens (stream_lines infile) →
     ∃ h, section ini name = ret h ∧ inisection_name h = name ∧
          ∀ key d,
            inisection_get h key = get ini name key ∧
            inisection_dget h key d = dget ini name key d).
Proof.
  intros Hctor. destruct (inifile_ctor_store _ _ Hctor) as [Hl Hd].
  assert (Hsec : ∀ sec, THeader sec ∉ spec_tokens (stream_lines infile) ↔
                        sections_ ini !! sec = None).
  { intros sec. rewrite <- Hd, eq_None_not_Some. done. }
  assert (Hkey : ∀ sec key kv, sections_ ini !! sec = Some kv →
            kv !! key = spec_last (Some sec) key
              (spec_entries None (spec_tokens (stream_lines infile)))).
  { intros sec key kv Hkv. rewrite <- Hl. simpl. by rewrite Hkv. }
  split_and!.
  - intros sec key. rewrite Hsec. pose proof (get_cases ini sec key) as Hg.
    unfold throw, ret in *.
    destruct (sections_ ini !! sec) as [kv|] eqn:Hkv.
    + split; [|done]. intros (e & He & Hu). exfalso.
      destruct (kv !! key); rewrite Hg in He;
        [discriminate|injection He as <-; done].
    + split; [done|]. intros _. by eexists.
  - intros sec key. rewrite <- Hd. pose proof (get_cases ini sec key) as Hg.
    unfold throw, ret in *.
    destruct (sections_ ini !! sec) as [kv|] eqn:Hkv.
    + rewrite <- spec_last_None, <- (Hkey _ _ _ Hkv).
      destruct (kv !! key) as [value|].
      * split; [|by intros [_ [=]]]. intros (e & He & _).
        rewrite Hg in He. discriminate.
      * split; [by intros _; split; [eexists|]|]. intros _. by eexists.
    + split; [|by intros [[? [=]] _]]. intros (e & He & Hu).
      rewrite Hg in He. injection He as <-. done.
  - intros sec key. rewrite <- Hd. pose proof (get_cases ini sec key) as Hg.
    unfold throw, ret in *.
    destruct (sections_ ini !! sec) as [kv|] eqn:Hkv.
    + pose proof (Hkey _ key _ Hkv) as Hk.
      destruct (kv !! key) as [value|] eqn:Hv.
      * split.
        -- intros _. split; [by eexists|]. exists value.
           by apply spec_last_elem.
        -- intros _. exists value. split; [done|]. simpl. by rewrite Hkv.
      * split.
        -- intros (value & He & _). rewrite Hg in He. discriminate.
        -- intros (_ & value & Hin). exfalso. symmetry in Hk.
           rewrite spec_last_None in Hk. by apply (Hk value).
    + split.
      * intros (value & He & _). rewrite Hg in He. discriminate.
      * by intros [[? [=]] _].
  - intros name. rewrite Hsec. unfold section, throw, ret.
    destruct (sections_ ini !! name) as [kv|].
    + split; [|done]. by intros (e & [=] & _).
    + split; [done|]. intros _. by eexists.
  - intros name Hin. apply Hd in Hin as [kv Hkv]. unfold section.
    rewrite Hkv. by eexists.
Qed.

Lemma unknown_lookups_witness :
  inifile_ctor doc_default_section = ret (store_of doc_default_section) ∧
  (∃ e, get (store_of doc_default_section) "b" "k" = throw e ∧
        is_unknown_section e = true) ∧
  (∃ e, get (store_of doc_default_section) "a" "j" = throw e ∧
        is_unknown_entry e = true).
Proof.
  assert (Hctor : inifile_ctor doc_default_section =
                  ret (store_of doc_default_section))
    by (vm_compute; reflexivity).
  split; [exact Hctor|].
  destruct (unknown_lookups _ _ Hctor) as (Hsection & Hentry & _).
  split.
  - apply Hsection. apply (bool_decide_unpack _). vm_compute. exact I.
  - apply Hentry. split.
    + apply (bool_decide_unpack _). vm_compute. exact I.
    + apply spec_last_None. vm_compute. reflexivity.
Defined.

(** ** C5: [dget] never fails *)

Lemma spec_line_entry line key value :
  spec_line line = Token (TEntry key value) →
  ∃ k0 v0, spec_cut "=" (spec_prepare line) = Some (k0, v0) ∧
           key = private_.trim k0 ∧ value = private_.trim v0.
Proof.
  destruct (spec_prepare line) as [|c body] eqn:Hp.
  { by rewrite (spec_line_blank _ Hp). }
  destruct (decide (c = "["%char)) as [->|Hc].
  - rewrite (spec_line_bracket _ _ Hp). by destruct (spec_drop_last "]" body).
  - rewrite (spec_line_other _ _ _ Hp Hc).
    destruct (spec_cut "=" (String c body)) as [[k0 v0]|]; [|done].
    intros [= <- <-]. by exists k0, v0.
Qed.

Lemma stored_value_origin infile ini sec key value :
  inifile_ctor infile = ret ini →
  store_lookup ini sec key = Some value →
  ∃ line k0 v0,
    line ∈ stream_lines infile ∧
    spec_cut "=" (spec_prepare line) = Some (k0, v0) ∧
    key = private_.trim k0 ∧ value = private_.trim v0.
Proof.
  intros Hctor Hv. destruct (inifile_ctor_store _ _ Hctor) as [Hl _].
  rewrite Hl in Hv.
  apply spec_last_elem, spec_entries_token, spec_tokens_elem in Hv
    as (line & Hin & Hline).
  apply spec_line_entry in Hline as (k0 & v0 & Hcut & -> & ->).
  by exists line, k0, v0.
Qed.

(** C5.  After a successful parse neither [dget] throws.  The
    three-argument form returns the fallback when [get(section, key)]
    throws and the stored string, as it is, when [get] returns it; so its
    result is the fallback exactly when [get] throws or the stored string
    is the fallback itself.  A stored string is the trimmed text that
    follows the first '=' of a trimmed, comment-stripped line.  The
    two-argument form does the same against the default section. *)
Theorem dget_never_fails (infile : string) (ini : inifile) :
  inifile_ctor infile = ret ini →
  ∀ sec key fallback,
    (∃ r, dget ini sec key fallback = ret r) ∧
    (∀ e, get ini sec key = throw e →
          dget ini sec key fallback = ret fallback) ∧
    (∀ value, get ini sec key = ret value →
              dget ini sec key fallback = ret value) ∧
    (dget ini sec key fallback = ret fallback ↔
     (∃ e, get ini sec key = throw e) ∨ get ini sec key = ret fallback) ∧
    (∀ value, get ini sec key = ret value →
       ∃ line k0 v0,
         line ∈ stream_lines infile ∧
         spec_cut "=" (spec_prepare line) = Some (k0, v0) ∧
         key = private_.trim k0 ∧ value = private_.trim v0) ∧
    (∃ r, dget1 ini key fallback = ret r) ∧
    (∀ e, get1 ini key = throw e → dget1 ini key fallback = ret fallback) ∧
    (∀ value, get1 ini key = ret value →
              dget1 ini key fallback = ret value) ∧
    (dget1 ini key fallback = ret fallback ↔
     (∃ e, get1 ini key = throw e) ∨ get1 ini key = ret fallback).
Proof.
  intros Hctor sec key fallback.
  pose proof (get_cases ini sec key) as Hg.
  assert (Hg1 : get1 ini key = throw (unknown_entry_error1 key) ∨
                ∃ value, get1 ini key = ret value).
  { unfold get1. destruct (defaultsection_ ini !! key); [right|left]; eauto. }
  split_and!.
  - unfold dget. destruct (sections_ ini !! sec) as [kv|];
      [destruct (kv !! key)|]; rewrite Hg; by eexists.
  - intros e He. unfold dget. rewrite He in Hg |- *. unfold throw, ret in *.
    destruct (sections_ ini !! sec) as [kv|]; [destruct (kv !! key)|];
      [discriminate|by injection Hg as ->..].
  - intros value Hv. unfold dget. by rewrite Hv.
  - unfold dget. destruct (sections_ ini !! sec) as [kv|];
      [destruct (kv !! key)|]; rewrite Hg; unfold throw, ret; simpl.
    + split; [by right|]. by intros [[e [=]]|?].
    + split; [|done]. intros _. left. by eexists.
    + split; [|done]. intros _. left. by eexists.
  - intros value Hv. apply get_store_lookup in Hv.
    by eapply stored_value_origin.
  - unfold dget1. destruct Hg1 as [->|[value ->]]; by eexists.
  - intros e He. unfold dget1. rewrite He. unfold throw, ret in *.
    destruct Hg1 as [Hg1|[value Hg1]]; rewrite Hg1 in He;
      [by injection He as <-|discriminate].
  - intros value Hv. unfold dget1. by rewrite Hv.
  - unfold dget1. destruct Hg1 as [->|[value ->]]; unfold throw, ret; simpl.
    + split; [|done]. intros _. left. by eexists.
    + split; [by right|]. by intros [[e [=]]|?].
Qed.

Lemma dget_never_fails_witness :
  inifile_ctor doc_default_section = ret (store_of doc_default_section) ∧
  (∃ r, dget (store_of doc_default_section) "b" "k" "fallback" = ret r) ∧
  dget (store_of doc_default_section) "a" "k" "fallback" = ret "2".
Proof.
  assert (Hctor : inifile_ctor doc_default_section =
                  ret (store_of doc_default_section))
    by (vm_compute; reflexivity).
  split; [exact Hctor|]. split.
  - exact (proj1 (dget_never_fails _ _ Hctor "b" "k" "fallback")).
  - apply (dget_never_fails _ _ Hctor "a" "k" "fallback").
    vm_compute. reflexivity.
Defined.

(** Section 8 of the specification: both unknown lookups are swallowed
    by [dget], and whitespace around key and value is insignificant. *)
Example dget_swallows :
  dget (store_of doc_default_section) "missing_section" "k" "d" =
    ret "d" ∧
  dget (store_of doc_default_section) "a" "missing_key" "d" =
    ret "d" ∧
  dget1 (store_of doc_default_section) "missing_key" "d" = ret "d".
Proof. by vm_compute. Qed.

Example whitespace_and_comments :
  get1 (store_of "  k  =  v  ") "k" = ret "v" ∧
  get1 (store_of "k=1 # comment") "k" = ret "1" ∧
  get1 (store_of "k=1;2") "k" = ret "1".
Proof. by vm_compute. Qed.

(** ** C8: comment stripping *)

Lemma strip_comment_mark_truncate c s :
  private_.strip_comment_mark s (String c EmptyString) = spec_truncate c s.
Proof.
  unfold private_.strip_comment_mark, std_string.erase_from.
  induction s as [|d s IH]; [done|].
  cbn [std_string.find_first_of std_string.mem spec_truncate].
  destruct (Ascii.eqb d c); [done|].
  destruct (std_string.find_first_of s (String c EmptyString)) as [pos|];
    cbn [fmap option_fmap option_map String.substring]; by rewrite <- IH.
Qed.

Lemma spec_truncate_two_pass s :
  spec_truncate ";" (spec_truncate "#" s) =
  spec_shorter (spec_truncate "#" s) (spec_truncate ";" s).
Proof.
  unfold spec_shorter. induction s as [|d s IH]; [done|].
  cbn [spec_truncate].
  destruct (Ascii.eqb_spec d "#") as [->|Hhash]; [done|].
  destruct (Ascii.eqb_spec d ";") as [->|Hsemi].
  - simpl. done.
  - cbn [spec_truncate String.length Nat.leb].
    rewrite (proj2 (Ascii.eqb_neq _ _) Hsemi), IH.
    by destruct (Nat.leb _ _).
Qed.

(** [spec_truncate c s] is the part of [s] before its first [c]. *)
Lemma spec_truncate_prefix c s :
  std_string.mem c (spec_truncate c s) = false ∧
  (spec_truncate c s = s ∨
   ∃ rest, s = spec_truncate c s +:+ String c rest).
Proof.
  induction s as [|d s [IHm IHs]]; [by split; [|left]|].
  cbn [spec_truncate]. destruct (Ascii.eqb_spec d c) as [->|Hne].
  - split; [done|]. right. by exists s.
  - split.
    + cbn [std_string.mem]. rewrite Ascii.eqb_sym.
      by rewrite (proj2 (Ascii.eqb_neq _ _) Hne).
    + destruct IHs as [->|[rest Hrest]]; [by left|]. right. exists rest.
      by rewrite string_app_cons, <- Hrest.
Qed.

Lemma strip_comment_truncate s :
  private_.strip_comment s = spec_truncate ";" (spec_truncate "#" s).
Proof.
  unfold private_.strip_comment. by rewrite !strip_comment_mark_truncate.
Qed.

(** C8.  The default comment stripping is two truncation passes, first
    at the first '#' and then, on the result, at the first ';'; this is
    the shorter of the two truncations of the original string, and on
    ["abc ; def # ghi"] it leaves ["abc "]. *)
Theorem strip_comment_two_pass :
  (∀ s, private_.strip_comment s = spec_truncate ";" (spec_truncate "#" s)) ∧
  (∀ s, private_.strip_comment s =
        spec_shorter (spec_truncate "#" s) (spec_truncate ";" s)) ∧
  private_.strip_comment "abc ; def # ghi" = "abc ".
Proof.
  split_and!; [apply strip_comment_truncate| |done].
  intros s. by rewrite strip_comment_truncate, spec_truncate_two_pass.
Qed.

(** ** C6: the typed accessor *)

Lemma extract_char_None i : extract_char i = None ↔ all_whitespace i.
Proof.
  unfold extract_char. induction i as [|c i IH]; [done|].
  cbn [skipws all_whitespace].
  destruct (std_string.mem c private_.whitespace).
  - rewrite IH. tauto.
  - split; [done|]. by intros [[=] _].
Qed.

Section getval_generic.
Context {T : Type} `{Extractable T}.

Lemma getval_cases ini sec key (def : T) :
  (∃ r, getval ini sec key def = ret r) ∧
  (∀ e, get ini sec key = throw e → getval ini sec key def = ret def) ∧
  (∀ src, get ini sec key = ret src →
     (extract src = None → getval ini sec key def = ret def) ∧
     (∀ rv rest, extract src = Some (rv, rest) →
        (all_whitespace rest → getval ini sec key def = ret rv) ∧
        (¬ all_whitespace rest → getval ini sec key def = ret def))).
Proof.
  unfold getval. split_and!.
  - destruct (get ini sec key) as [e|src]; [by eexists|].
    destruct (extract src) as [[rv rest]|]; [|by eexists].
    destruct (extract_char rest); by eexists.
  - by intros e ->.
  - intros src ->. unfold ret. split; [by intros ->|].
    intros rv rest ->. rewrite <- extract_char_None.
    by destruct (extract_char rest) as [[c i]|]; split.
Qed.

Lemma inisection_getval_getval ini sec key (def : T) h :
  section ini sec = ret h →
  inisection_getval h key def = getval ini sec key def.
Proof.
  unfold section. destruct (sections_ ini !! sec); [|done].
  by intros [= <-].
Qed.
End getval_generic.

(** C6.  For every scalar type and every store, [getval] never throws;
    it returns the default when the lookup throws, when the extraction
    of the stored string fails, and when the extraction succeeds but
    leaves a character that is not white space; it returns the extracted
    value when nothing but white space is left.  The accessor of a
    section handle is the store's.  A stored ["42"] read as [int] with
    default 0 gives 42; a stored ["notabool"] read as [bool] gives the
    default, whichever it is. *)
Theorem getval_default_on_failure :
  (∀ (T : Type) (E : Extractable T) ini sec key (def : T),
     (∃ r, getval ini sec key def = ret r) ∧
     (∀ e, get ini sec key = throw e → getval ini sec key def = ret def) ∧
     (∀ src, get ini sec key = ret src →
        (extract src = None → getval ini sec key def = ret def) ∧
        (∀ rv rest, extract src = Some (rv, rest) →
           (all_whitespace rest → getval ini sec key def = ret rv) ∧
           (¬ all_whitespace rest → getval ini sec key def = ret def))) ∧
     (∀ h, section ini sec = ret h →
           inisection_getval h key def = getval ini sec key def)) ∧
  inifile_ctor doc_typed = ret (store_of doc_typed) ∧
  getval (store_of doc_typed) "a" "n" 0%Z = ret 42%Z ∧
  getval (store_of doc_typed) "a" "flag" false = ret false ∧
  getval (store_of doc_typed) "a" "flag" true = ret true ∧
  getval (store_of doc_typed) "a" "absent" true = ret true.
Proof.
  split; [|by vm_compute].
  intros T E ini sec key def.
  destruct (getval_cases ini sec key def) as (Hr & He & Hs).
  split_and!; [done..|]. intros h Hh. by apply inisection_getval_getval.
Qed.

Lemma getval_default_on_failure_witness :
  get (store_of doc_typed) "a" "n" = ret "42" ∧
  extract (T := Z) "42" = Some (42%Z, EmptyString) ∧
  all_whitespace EmptyString ∧
  getval (store_of doc_typed) "a" "n" 0%Z = ret 42%Z.
Proof.
  assert (Hget : get (store_of doc_typed) "a" "n" = ret "42")
    by (vm_compute; reflexivity).
  assert (Hex : extract (T := Z) "42" = Some (42%Z, EmptyString))
    by (vm_compute; reflexivity).
  split_and!; [exact Hget|exact Hex|exact I|].
  destruct getval_default_on_failure as [Hgeneral _].
  destruct (Hgeneral Z int_extractable (store_of doc_typed) "a" "n" 0%Z)
    as (_ & _ & Hsrc & _).
  exact (proj1 (proj2 (Hsrc _ Hget) _ _ Hex) I).
Defined.

(** ** C7: the letter case of booleans *)

(** The characters that lower to a given lower-case letter. *)
Lemma to_lower_char_inv (c d : ascii) :
  to_lower_char c = d →
  c = d ∨ (nat_of_ascii c + 32 = nat_of_ascii d ∧ to_lower_char d = d).
Proof.
  intros <-. destruct c as [[] [] [] [] [] [] [] []];
    (left; reflexivity) || (right; split; reflexivity).
Qed.

Lemma upper_of (c : ascii) (n : nat) :
  nat_of_ascii c + 32 = n → c = ascii_of_nat (n - 32).
Proof.
  intros <-. by rewrite Nat.add_sub, ascii_nat_embedding.
Qed.

Ltac letter_cases H :=
  apply to_lower_char_inv in H as [->|[H _]];
  [|apply upper_of in H; vm_compute in H; subst].

Lemma case_variant_true src :
  case_variant src "true" →
  src = "true" ∨ (src ≠ "true" ∧ extract_bool src = None).
Proof.
  unfold case_variant.
  destruct src as [|c1 [|c2 [|c3 [|c4 [|c5 src]]]]]; try discriminate.
  cbn [to_lower]. intros [= H1 H2 H3 H4].
  letter_cases H1; letter_cases H2; letter_cases H3; letter_cases H4;
    (left; reflexivity) || (right; split; [discriminate|reflexivity]).
Qed.

Lemma case_variant_false src :
  case_variant src "false" →
  src = "false" ∨ (src ≠ "false" ∧ extract_bool src = None).
Proof.
  unfold case_variant.
  destruct src as [|c1 [|c2 [|c3 [|c4 [|c5 [|c6 src]]]]]]; try discriminate.
  cbn [to_lower]. intros [= H1 H2 H3 H4 H5].
  letter_cases H1; letter_cases H2; letter_cases H3; letter_cases H4;
    letter_cases H5;
    (left; reflexivity) || (right; split; [discriminate|reflexivity]).
Qed.

(** C7, as the code has it.  [getval<bool>] matches the stored text
    against ["true"] and ["false"] character by character: exactly
    ["true"] gives [true] and exactly ["false"] gives [false], whatever
    the default, and every other letter-case variant of either gives the
    default. *)
Theorem getval_bool_case_sensitive (ini : inifile) (sec key src : string)
    (def : bool) :
  get ini sec key = ret src →
  (src = "true" → getval ini sec key def = ret true) ∧
  (src = "false" → getval ini sec key def = ret false) ∧
  (case_variant src "true" ∨ case_variant src "false" →
   src ≠ "true" → src ≠ "false" →
   getval ini sec key def = ret def).
Proof.
  intros Hget. unfold getval. rewrite Hget. unfold ret. split_and!.
  - by intros ->.
  - by intros ->.
  - intros [Hv|Hv] Ht Hf.
    + apply case_variant_true in Hv as [->|[_ Hx]]; [done|].
      unfold extract, bool_extractable. by rewrite Hx.
    + apply case_variant_false in Hv as [->|[_ Hx]]; [done|].
      unfold extract, bool_extractable. by rewrite Hx.
Qed.

Lemma getval_bool_case_sensitive_witness :
  get (store_of doc_typed) "a" "t" = ret "true" ∧
  getval (store_of doc_typed) "a" "t" false = ret true.
Proof.
  assert (Hget : get (store_of doc_typed) "a" "t" = ret "true")
    by (vm_compute; reflexivity).
  split; [exact Hget|].
  exact (proj1 (getval_bool_case_sensitive _ _ _ _ false Hget) eq_refl).
Defined.

(** Case-insensitive matching fails on [[a]\nf=TRUE]: the stored
    ["TRUE"] is a letter-case variant of ["true"], and [getval] with
    default [false] returns the default, not [true]. *)
Lemma getval_bool_upper_case_returns_default :
  inifile_ctor doc_upper_true = ret (store_of doc_upper_true) ∧
  get (store_of doc_upper_true) "a" "f" = ret "TRUE" ∧
  case_variant "TRUE" "true" ∧
  getval (store_of doc_upper_true) "a" "f" false = ret false ∧
  getval (store_of doc_upper_true) "a" "f" false ≠ ret true.
Proof.
  split_and!; try (vm_compute; reflexivity). vm_compute. discriminate.
Qed.

(** ** C9: a header followed by a comment *)

Lemma mem_app c a b :
  std_string.mem c (a +:+ b) = std_string.mem c a || std_string.mem c b.
Proof.
  induction a as [|d a IH]; [done|]. rewrite string_app_cons.
  cbn [std_string.mem]. by destruct (Ascii.eqb c d).
Qed.

Lemma whitespace_chars c :
  std_string.mem c private_.whitespace = true →
  c ≠ "#"%char ∧ c ≠ ";"%char ∧ c ≠ "]"%char.
Proof.
  destruct c as [[] [] [] [] [] [] [] []]; intros Hmem;
    try discriminate Hmem; split_and!; discriminate.
Qed.

Lemma all_whitespace_mem c ws :
  all_whitespace ws → (c = "#" ∨ c = ";")%char → std_string.mem c ws = false.
Proof.
  intros Hws Hc. induction ws as [|d ws IH]; [done|].
  destruct Hws as [Hd Hws]. cbn [std_string.mem]. rewrite (IH Hws).
  apply whitespace_chars in Hd as (? & ? & _).
  destruct (Ascii.eqb_spec c d) as [->|_]; [|done]. by destruct Hc.
Qed.

Lemma string_last s :
  s ≠ EmptyString → ∃ s' d, s = s' +:+ String d EmptyString.
Proof.
  induction s as [|c s IH]; [done|]. intros _. destruct s as [|e s].
  - by exists EmptyString, c.
  - destruct IH as (s' & d & ->); [done|]. by exists (String c s'), d.
Qed.

Lemma all_whitespace_last s d :
  all_whitespace (s +:+ String d EmptyString) →
  std_string.mem d private_.whitespace = true.
Proof.
  induction s as [|c s IH]; [by intros [? _]|].
  rewrite string_app_cons. intros [_ ?]. by apply IH.
Qed.

Lemma spec_drop_last_snoc c a d :
  spec_drop_last c (a +:+ String d EmptyString) =
  if Ascii.eqb d c then Some a else None.
Proof.
  induction a as [|e a IH]; [done|].
  rewrite string_app_cons. cbn [spec_drop_last]. rewrite IH.
  destruct (a +:+ String d EmptyString) eqn:E;
    [destruct a; discriminate|].
  by destruct (Ascii.eqb d c).
Qed.

Lemma find_last_not_of_app a m t set :
  std_string.mem m set = false →
  is_Some (std_string.find_last_not_of (a +:+ String m t) set).
Proof.
  intros Hm. induction a as [|c a [i Hi]].
  - rewrite string_app_nil_l. cbn [std_string.find_last_not_of].
    rewrite Hm. by destruct (std_string.find_last_not_of t set).
  - rewrite string_app_cons. cbn [std_string.find_last_not_of].
    by rewrite Hi.
Qed.

Lemma rstrip_cons c s set :
  private_.rstrip (String c s) set =
  match std_string.find_last_not_of s set with
  | Some _ => String c (private_.rstrip s set)
  | None => if std_string.mem c set then EmptyString else String c EmptyString
  end.
Proof.
  unfold private_.rstrip, std_string.erase_from.
  cbn [std_string.find_last_not_of].
  destruct (std_string.find_last_not_of s set) as [i|]; [by simpl|].
  destruct (std_string.mem c set); [done|]. simpl. by destruct s.
Qed.

Lemma rstrip_app a m t set :
  std_string.mem m set = false →
  private_.rstrip (a +:+ String m t) set =
  a +:+ String m (private_.rstrip t set).
Proof.
  intros Hm. induction a as [|c a IH].
  - rewrite !string_app_nil_l, rstrip_cons, Hm.
    unfold private_.rstrip.
    by destruct (std_string.find_last_not_of t set).
  - rewrite !string_app_cons, rstrip_cons.
    destruct (find_last_not_of_app a m t set Hm) as [i ->].
    by rewrite IH.
Qed.

Lemma lstrip_cons c s set :
  std_string.mem c set = false → private_.lstrip (String c s) set = String c s.
Proof.
  intros Hc. unfold private_.lstrip, std_string.erase_front.
  cbn [std_string.find_first_not_of]. rewrite Hc.
  rewrite Nat.sub_0_r. cbn [String.length String.substring].
  by rewrite substring_0_length.
Qed.

Lemma spec_truncate_app c a t :
  std_string.mem c a = false →
  spec_truncate c (a +:+ t) = a +:+ spec_truncate c t.
Proof.
  induction a as [|d a IH]; [done|]. cbn [std_string.mem].
  rewrite string_app_cons. cbn [spec_truncate]. rewrite Ascii.eqb_sym.
  destruct (Ascii.eqb d c); [done|]. intros Ha.
  by rewrite IH, string_app_cons.
Qed.

Lemma spec_truncate_free c a :
  std_string.mem c a = false → spec_truncate c a = a.
Proof.
  intros Ha. rewrite <- (string_app_nil_r a) at 1.
  by rewrite spec_truncate_app, string_app_nil_r.
Qed.

Lemma spec_truncate_hit c a t :
  std_string.mem c a = false → spec_truncate c (a +:+ String c t) = a.
Proof.
  intros Ha. rewrite spec_truncate_app by done. cbn [spec_truncate].
  by rewrite Ascii.eqb_refl, string_app_nil_r.
Qed.

Section header_with_comment.
Variables (name ws text : string) (m : ascii).
Hypothesis name_no_hash : std_string.mem "#" name = false.
Hypothesis name_no_semicolon : std_string.mem ";" name = false.
Hypothesis ws_not_empty : ws ≠ EmptyString.
Hypothesis ws_whitespace : all_whitespace ws.
Hypothesis m_marker : (m = "#" ∨ m = ";")%char.

Let header : string := "[" +:+ name +:+ "]".
Let line : string := header +:+ ws +:+ String m text.

Lemma header_ws_no_marker c :
  (c = "#" ∨ c = ";")%char → std_string.mem c (header +:+ ws) = false.
Proof using name_no_hash name_no_semicolon ws_whitespace.
  intros Hc. unfold header. rewrite !mem_app.
  rewrite (all_whitespace_mem c ws ws_whitespace Hc).
  by destruct Hc as [-> | ->]; rewrite ?name_no_hash, ?name_no_semicolon.
Qed.

Lemma trim_header_comment :
  private_.trim line =
  (header +:+ ws) +:+ String m (private_.rstrip text private_.whitespace).
Proof using m_marker.
  unfold private_.trim, private_.trim_with, line, header.
  change ("[" +:+ name +:+ "]") with (String "[" (name +:+ "]")).
  rewrite !string_app_cons, lstrip_cons by done.
  rewrite <- !string_app_cons, <- string_app_assoc.
  apply rstrip_app. by destruct m_marker as [-> | ->].
Qed.

Lemma prepare_header_comment : spec_prepare line = header +:+ ws.
Proof using name_no_hash name_no_semicolon ws_whitespace m_marker.
  unfold spec_prepare.
  rewrite trim_header_comment, strip_comment_truncate.
  pose proof (header_ws_no_marker "#" (or_introl eq_refl)) as Hhash.
  pose proof (header_ws_no_marker ";" (or_intror eq_refl)) as Hsemi.
  destruct m_marker as [-> | ->].
  - by rewrite spec_truncate_hit, spec_truncate_free.
  - rewrite spec_truncate_app by done. cbn [spec_truncate Ascii.eqb Bool.eqb].
    by rewrite spec_truncate_hit.
Qed.

Lemma prepare_header : spec_prepare header = header.
Proof using name_no_hash name_no_semicolon.
  unfold spec_prepare, private_.trim, private_.trim_with, header.
  change ("[" +:+ name +:+ "]") with (String "[" (name +:+ "]")).
  rewrite lstrip_cons by done.
  rewrite <- string_app_cons, rstrip_app by done.
  rewrite strip_comment_truncate.
  assert (Hfree : ∀ c, (c = "#" ∨ c = ";")%char →
            std_string.mem c (String "[" name +:+
              String "]" (private_.rstrip EmptyString private_.whitespace))
            = false).
  { intros c Hc. rewrite mem_app.
    by destruct Hc as [-> | ->]; cbn [std_string.mem Ascii.eqb Bool.eqb];
      rewrite ?name_no_hash, ?name_no_semicolon. }
  rewrite (spec_truncate_free "#") by (apply Hfree; by left).
  by rewrite (spec_truncate_free ";") by (apply Hfree; by right).
Qed.

Lemma spec_line_header_comment :
  spec_line line = MissingBracket (header +:+ ws).
Proof using name_no_hash name_no_semicolon ws_not_empty ws_whitespace
            m_marker.
  pose proof prepare_header_comment as Hp. unfold header in Hp |- *.
  change ("[" +:+ name +:+ "]") with (String "[" (name +:+ "]")) in Hp |- *.
  rewrite string_app_cons in Hp |- *.
  rewrite (spec_line_bracket _ _ Hp).
  destruct (string_last ws ws_not_empty) as (ws' & d & Hws).
  pose proof ws_whitespace as Hd. rewrite Hws in Hd |- *.
  apply all_whitespace_last, whitespace_chars in Hd as (_ & _ & Hd).
  rewrite <- !string_app_assoc, spec_drop_last_snoc.
  by rewrite (proj2 (Ascii.eqb_neq _ _) Hd).
Qed.

Lemma spec_line_header :
  spec_line header = Token (THeader (private_.trim name)).
Proof using name_no_hash name_no_semicolon.
  pose proof prepare_header as Hp. unfold header in Hp |- *.
  change ("[" +:+ name +:+ "]") with (String "[" (name +:+ "]")) in Hp |- *.
  by rewrite (spec_line_bracket _ _ Hp), spec_drop_last_app.
Qed.
End header_with_comment.

(** C9.  A header line followed by white space and a comment keeps the
    white space when the comment is stripped, so its last character is
    not the closing bracket: the line throws a syntax error, and so does
    every document that contains it, although the header alone is
    accepted. *)
Theorem header_trailing_comment_rejected (name ws text : string) (m : ascii) :
  std_string.mem "#" name = false →
  std_string.mem ";" name = false →
  ws ≠ EmptyString →
  all_whitespace ws →
  (m = "#" ∨ m = ";")%char →
  spec_prepare (("[" +:+ name +:+ "]") +:+ ws +:+ String m text) =
    ("[" +:+ name +:+ "]") +:+ ws ∧
  (∀ st, parse_line (("[" +:+ name +:+ "]") +:+ ws +:+ String m text) st =
         throw (syntax_error ("The section '" +:+
                              (("[" +:+ name +:+ "]") +:+ ws) +:+
                              "' is missing a closing bracket."))) ∧
  (∀ infile,
     (("[" +:+ name +:+ "]") +:+ ws +:+ String m text) ∈ stream_lines infile →
     ∃ msg, inifile_ctor infile = throw (syntax_error msg)) ∧
  (∀ st, parse_line ("[" +:+ name +:+ "]") st =
         ret (Some (private_.trim name),
              sections_index (private_.trim name) st.2)).
Proof.
  intros Hhash Hsemi Hne Hws Hm.
  pose proof (spec_line_header_comment name ws text m Hhash Hsemi Hne Hws Hm)
    as Hline.
  split_and!.
  - by apply prepare_header_comment.
  - intros st. by rewrite parse_line_spec, Hline.
  - intros infile Hin. apply (inifile_ctor_malformed _ _ Hin).
    by rewrite malformed_line_outcome, Hline.
  - intros st. by rewrite parse_line_spec, spec_line_header.
Qed.

Lemma header_trailing_comment_rejected_witness :
  std_string.mem "#" "a" = false ∧
  std_string.mem ";" "a" = false ∧
  " " ≠ EmptyString ∧
  all_whitespace " " ∧
  (∃ msg, inifile_ctor "[a] ; note" = throw (syntax_error msg)) ∧
  (∃ ini, inifile_ctor "[a]" = ret ini).
Proof.
  assert (Hne : " " ≠ EmptyString) by discriminate.
  assert (Hws : all_whitespace " ") by (split; [reflexivity|exact I]).
  split_and!; [reflexivity|reflexivity|exact Hne|exact Hws| |].
  - destruct (header_trailing_comment_rejected "a" " " " note" ";"
                eq_refl eq_refl Hne Hws (or_intror eq_refl))
      as (_ & _ & Hdoc & _).
    apply Hdoc. vm_compute. left.
  - eexists. vm_compute. reflexivity.
Defined.

(** The line [[a] ; note], evaluated. *)
Example example_header_note :
  inifile_ctor "[a] ; note" =
    throw (syntax_error "The section '[a] ' is missing a closing bracket.") ∧
  inifile_ctor "[a]" = ret (store_of "[a]") ∧
  sections_ (store_of "[a]") !! "a" = Some ∅.
Proof. by vm_compute. Qed.

(** ** C10: the arguments of the unknown entry error *)

(** C10.  When the section exists and the key is absent, [get] throws
    the unknown entry error built with the section name in the
    constructor's key position and the key in its section position: its
    text names the section as the entry and the key as the section. *)
Theorem get_unknown_entry_swapped (ini : inifile) (sec key : string)
    (kv : gmap string string) :
  sections_ ini !! sec = Some kv →
  kv !! key = None →
  get ini sec key = throw (unknown_entry_error (* key := *) sec
                                               (* section := *) key) ∧
  (∀ e, get ini sec key = throw e →
        what e = "Unknown entry '" +:+ sec +:+ "' in section '" +:+
                 key +:+ "'.").
Proof.
  intros Hsec Hkey. unfold get. rewrite Hsec, Hkey. split; [done|].
  by intros e [= <-].
Qed.

Lemma get_unknown_entry_swapped_witness :
  sections_ (store_of doc_default_section) !! "a" =
    Some {[ "k" := "2" ]} ∧
  ({[ "k" := "2" ]} : gmap string string)
    !! "missing" = None ∧
  get (store_of doc_default_section) "a" "missing" =
    throw (UnknownEntry "Unknown entry 'a' in section 'missing'.").
Proof.
  assert (Hsec : sections_ (store_of doc_default_section) !! "a" =
                 Some {[ "k" := "2" ]})
    by (vm_compute; reflexivity).
  assert (Hkey : ({[ "k" := "2" ]} : gmap string string)
                   !! "missing" = None)
    by (vm_compute; reflexivity).
  split_and!; [exact Hsec|exact Hkey|].
  exact (proj1 (get_unknown_entry_swapped _ _ _ _ Hsec Hkey)).
Defined.

(** * Further properties of the code *)

(** ** Character sets *)

Lemma all_in_app set a b : all_in set (a +:+ b) ↔ all_in set a ∧ all_in set b.
Proof.
  induction a as [|c a IH]; [rewrite string_app_nil_l; simpl; tauto|].
  rewrite string_app_cons. simpl. rewrite IH. tauto.
Qed.

Lemma none_in_app set a b :
  none_in set (a +:+ b) ↔ none_in set a ∧ none_in set b.
Proof.
  induction a as [|c a IH]; [rewrite string_app_nil_l; simpl; tauto|].
  rewrite string_app_cons. simpl. rewrite IH. tauto.
Qed.

Lemma all_whitespace_all_in s :
  all_whitespace s ↔ all_in private_.whitespace s.
Proof. induction s as [|c s IH]; simpl; [done|]. by rewrite IH. Qed.

Lemma string_snoc_cases s :
  s = EmptyString ∨ ∃ r c, s = r +:+ String c EmptyString.
Proof.
  destruct s as [|c s]; [by left|]. right. by apply string_last.
Qed.

Lemma string_app_inv_tail a b c d :
  a +:+ String c EmptyString = b +:+ String d EmptyString → a = b ∧ c = d.
Proof.
  revert b. induction a as [|x a IH]; intros [|y b]; rewrite ?string_app_nil_l,
    ?string_app_cons; intros [= ]; subst.
  - done.
  - by destruct b.
  - by destruct a.
  - destruct (IH b) as [-> ->]; done.
Qed.

(** ** X1, X2: [lstrip] and [rstrip] *)

Lemma lstrip_step c s set :
  private_.lstrip (String c s) set =
  if std_string.mem c set then private_.lstrip s set else String c s.
Proof.
  unfold private_.lstrip, std_string.erase_front.
  cbn [std_string.find_first_not_of].
  destruct (std_string.mem c set).
  - destruct (std_string.find_first_not_of s set) as [n|]; [|done].
    cbn [fmap option_fmap option_map]. done.
  - cbn [String.length String.substring]. rewrite Nat.sub_0_r.
    by rewrite substring_0_length.
Qed.

Lemma lstrip_decompose s set :
  ∃ l, s = l +:+ private_.lstrip s set ∧ all_in set l ∧
       ¬ starts_in set (private_.lstrip s set).
Proof.
  induction s as [|c s (l & Hs & Hl & Hn)].
  - exists EmptyString. split_and!; [done..|]. by intros (c & r & [=] & _).
  - rewrite lstrip_step. destruct (std_string.mem c set) eqn:Hc.
    + exists (String c l). rewrite string_app_cons, <- Hs. by split_and!.
    + exists EmptyString. split_and!; [done..|].
      intros (d & r & [= <- <-] & Hd). congruence.
Qed.

Lemma lstrip_unique l r set :
  all_in set l → ¬ starts_in set r → private_.lstrip (l +:+ r) set = r.
Proof.
  intros Hl Hr. induction l as [|c l IH].
  - rewrite string_app_nil_l. destruct r as [|d r]; [done|].
    rewrite lstrip_step. destruct (std_string.mem d set) eqn:Hd; [|done].
    destruct Hr. by exists d, r.
  - destruct Hl as [Hc Hl]. rewrite string_app_cons, lstrip_step, Hc. by apply IH.
Qed.

(** X1.  [lstrip] removes exactly the longest prefix made of characters
    of the set: the result is [r] if and only if the string is some [l]
    followed by [r], with every character of [l] in the set and [r] not
    beginning with one. *)
Theorem lstrip_spec (s set r : string) :
  private_.lstrip s set = r ↔
  ∃ l, s = l +:+ r ∧ all_in set l ∧ ¬ starts_in set r.
Proof.
  split.
  - intros <-. apply lstrip_decompose.
  - intros (l & -> & Hl & Hr). by apply lstrip_unique.
Qed.

Lemma rstrip_all_in s set : all_in set s → private_.rstrip s set = EmptyString.
Proof.
  induction s as [|c s IH]; [done|]. intros [Hc Hs].
  rewrite rstrip_cons, Hc. specialize (IH Hs). unfold private_.rstrip in IH.
  destruct (std_string.find_last_not_of s set) as [n|] eqn:Hf; [|done].
  unfold std_string.erase_from in IH. rewrite Nat.add_1_r in IH.
  destruct s; [discriminate Hf|discriminate IH].
Qed.

Lemma rstrip_decompose s set :
  ∃ r, s = private_.rstrip s set +:+ r ∧ all_in set r ∧
       ¬ ends_in set (private_.rstrip s set).
Proof.
  induction s as [|c s (r & Hs & Hr & Hn)].
  - exists EmptyString. split_and!; [done..|].
    intros (r & c & Heq & _). by destruct r.
  - rewrite rstrip_cons.
    destruct (std_string.find_last_not_of s set) as [n|] eqn:Hf.
    + exists r. rewrite string_app_cons, <- Hs. split_and!; [done..|].
      intros (r' & d & Heq & Hd). destruct r' as [|e r'].
      * rewrite string_app_nil_l in Heq. injection Heq as -> Heq.
        unfold private_.rstrip in Heq. rewrite Hf in Heq.
        unfold std_string.erase_from in Heq. rewrite Nat.add_1_r in Heq.
        destruct s; [discriminate Hf|discriminate Heq].
      * rewrite string_app_cons in Heq. injection Heq as -> Heq.
        apply Hn. by exists r', d.
    + assert (Hrs : private_.rstrip s set = EmptyString)
        by (unfold private_.rstrip; by rewrite Hf).
      rewrite Hrs, string_app_nil_l in Hs. subst r.
      destruct (std_string.mem c set) eqn:Hc.
      * exists (String c s). split_and!; [done..|].
        intros (r' & d & Heq & _). by destruct r'.
      * exists s. split_and!; [done..|].
        intros (r' & d & Heq & Hd). destruct r' as [|e r'].
        -- rewrite string_app_nil_l in Heq. injection Heq as <-. congruence.
        -- rewrite string_app_cons in Heq. injection Heq as _ Heq.
           by destruct r'.
Qed.

Lemma rstrip_unique l r set :
  all_in set r → ¬ ends_in set l → private_.rstrip (l +:+ r) set = l.
Proof.
  intros Hr Hl. destruct (string_snoc_cases l) as [->|(l' & c & ->)].
  - rewrite string_app_nil_l. by apply rstrip_all_in.
  - rewrite string_app_assoc, string_app_cons, string_app_nil_l.
    rewrite rstrip_app, (rstrip_all_in _ _ Hr); [done|].
    destruct (std_string.mem c set) eqn:Hc; [|done].
    destruct Hl. by exists l', c.
Qed.

(** X2.  [rstrip] removes exactly the longest suffix made of characters
    of the set. *)
Theorem rstrip_spec (s set l : string) :
  private_.rstrip s set = l ↔
  ∃ r, s = l +:+ r ∧ all_in set r ∧ ¬ ends_in set l.
Proof.
  split.
  - intros <-. apply rstrip_decompose.
  - intros (r & -> & Hr & Hl). by apply rstrip_unique.
Qed.

(** ** X3, X4: [trim] *)

Lemma lstrip_all_in s set : all_in set s → private_.lstrip s set = EmptyString.
Proof.
  intros Hs. rewrite <- (string_app_nil_r s). apply lstrip_unique; [done|].
  by intros (c & r & [=] & _).
Qed.

Lemma trim_decompose s set :
  ∃ l r, s = l +:+ private_.trim_with s set +:+ r ∧
         all_in set l ∧ all_in set r ∧
         ¬ starts_in set (private_.trim_with s set) ∧
         ¬ ends_in set (private_.trim_with s set).
Proof.
  unfold private_.trim_with.
  destruct (lstrip_decompose s set) as (l & Hs & Hl & Hstart).
  destruct (rstrip_decompose (private_.lstrip s set) set) as (r & Hm & Hr & Hend).
  exists l, r. split_and!; [by rewrite <- Hm| done | done | | done].
  intros (c & t & Ht & Hc). apply Hstart. exists c, (t +:+ r).
  split; [|done]. by rewrite Hm, Ht at 1.
Qed.

Lemma trim_unique l t r set :
  all_in set l → all_in set r → ¬ starts_in set t → ¬ ends_in set t →
  private_.trim_with (l +:+ t +:+ r) set = t.
Proof.
  intros Hl Hr Hstart Hend. unfold private_.trim_with.
  destruct t as [|c t].
  - rewrite string_app_nil_l, lstrip_all_in; [done|]. by apply all_in_app.
  - rewrite lstrip_unique; [by apply rstrip_unique|done|].
    intros (d & u & Heq & Hd). rewrite string_app_cons in Heq.
    injection Heq as <- _. apply Hstart. by exists c, t.
Qed.

Lemma trim_with_all_in s set :
  all_in set s → private_.trim_with s set = EmptyString.
Proof.
  intros Hs. unfold private_.trim_with. by rewrite lstrip_all_in.
Qed.

(** X3.  [trim] returns [t] if and only if the string is [t] between
    two runs of characters of the set and [t] neither begins nor ends
    with a character of the set; the result is empty exactly when the
    whole string is made of such characters. *)
Theorem trim_spec (s set : string) :
  (∀ t, private_.trim_with s set = t ↔
        ∃ l r, s = l +:+ t +:+ r ∧ all_in set l ∧ all_in set r ∧
               ¬ starts_in set t ∧ ¬ ends_in set t) ∧
  (private_.trim_with s set = EmptyString ↔ all_in set s).
Proof.
  assert (Hspec : ∀ t, private_.trim_with s set = t ↔
            ∃ l r, s = l +:+ t +:+ r ∧ all_in set l ∧ all_in set r ∧
                   ¬ starts_in set t ∧ ¬ ends_in set t).
  { intros t. split.
    - intros <-. apply trim_decompose.
    - intros (l & r & -> & Hl & Hr & Hstart & Hend). by apply trim_unique. }
  split; [done|]. rewrite Hspec. split.
  - intros (l & r & -> & Hl & Hr & _). rewrite string_app_nil_l.
    by apply all_in_app.
  - intros Hs. exists s, EmptyString.
    rewrite string_app_nil_l, string_app_nil_r. split_and!; [done..| |].
    + by intros (c & r & [=] & _).
    + intros (r & c & Heq & _). by destruct r.
Qed.

Lemma trim_with_idempotent s set :
  private_.trim_with (private_.trim_with s set) set = private_.trim_with s set.
Proof.
  destruct (trim_decompose s set) as (l & r & _ & _ & _ & Hstart & Hend).
  rewrite <- (string_app_nil_r (private_.trim_with s set)) at 1.
  rewrite <- (string_app_nil_l (private_.trim_with s set +:+ EmptyString)).
  by apply trim_unique.
Qed.

Lemma trim_with_padding l s r set :
  all_in set l → all_in set r →
  private_.trim_with (l +:+ s +:+ r) set = private_.trim_with s set.
Proof.
  intros Hl Hr.
  destruct (trim_decompose s set) as (l' & r' & Hs & Hl' & Hr' & Hstart & Hend).
  rewrite Hs at 1.
  replace (l +:+ (l' +:+ private_.trim_with s set +:+ r') +:+ r)
    with ((l +:+ l') +:+ private_.trim_with s set +:+ (r' +:+ r))
    by (by rewrite !string_app_assoc).
  apply trim_unique; [by apply all_in_app|by apply all_in_app|done..].
Qed.

(** X4.  [trim] is idempotent, and padding a string on either side with
    characters of the set does not change what [trim] returns. *)
Theorem trim_idempotent_padding (s set : string) :
  private_.trim_with (private_.trim_with s set) set =
    private_.trim_with s set ∧
  (∀ l r, all_in set l → all_in set r →
          private_.trim_with (l +:+ s +:+ r) set = private_.trim_with s set).
Proof.
  split; [apply trim_with_idempotent|]. intros l r. apply trim_with_padding.
Qed.

(** ** X5: [split] *)

Lemma prefix_app sep s :
  String.prefix sep s = true ↔ ∃ b, s = sep +:+ b.
Proof.
  revert s. induction sep as [|c sep IH]; intros s.
  - split; [|by destruct s]. intros _. by exists s.
  - destruct s as [|d s]; simpl.
    + split; [done|]. by intros [b [=]].
    + destruct (ascii_dec c d) as [->|Hne].
      * rewrite IH. split; intros [b Hb]; exists b.
        -- by rewrite string_app_cons, <- Hb.
        -- rewrite string_app_cons in Hb. by injection Hb.
      * split; [done|]. intros [b Hb]. rewrite string_app_cons in Hb.
        injection Hb as -> _. done.
Qed.

Lemma substring_skip_app a n m t :
  String.substring (String.length a + n) m (a +:+ t) = String.substring n m t.
Proof.
  induction a as [|c a IH]; [done|]. rewrite string_app_cons. apply IH.
Qed.

Lemma find_spec s sep :
  match std_string.find s sep with
  | Some n =>
      ∃ a b, s = a +:+ sep +:+ b ∧ String.length a = n ∧
             ∀ a' b', s = a' +:+ sep +:+ b' → n ≤ String.length a'
  | None => ∀ a b, s ≠ a +:+ sep +:+ b
  end.
Proof.
  unfold std_string.find. induction s as [|c s IH].
  - destruct sep as [|d sep]; simpl.
    + exists EmptyString, EmptyString. split_and!; [done..|]. intros; lia.
    + intros [|x a] b; rewrite ?string_app_nil_l, ?string_app_cons; done.
  - cbn [String.index].
    destruct (String.prefix sep (String c s)) eqn:Hp.
    + apply prefix_app in Hp as [b Hb].
      exists EmptyString, b. split_and!; [done..|]. intros; lia.
    + assert (Hnp : ∀ b, String c s ≠ sep +:+ b).
      { intros b Hb. assert (String.prefix sep (String c s) = true)
          by (apply prefix_app; by exists b). congruence. }
      destruct (String.index 0 sep s) as [n|].
      * destruct IH as (a & b & -> & <- & Hmin).
        exists (String c a), b. split_and!; [done..|].
        intros [|x a'] b'; rewrite ?string_app_nil_l, ?string_app_cons.
        -- intros Heq. by destruct (Hnp b').
        -- intros [= <- Heq]. simpl. apply le_n_S. by eapply Hmin.
      * intros [|x a] b; rewrite ?string_app_nil_l, ?string_app_cons.
        -- apply Hnp.
        -- intros [= <- Heq]. by eapply IH.
Qed.

(** X5.  [split] cuts at the first occurrence of the separator: it
    returns [(first, second)] exactly when the input is [first], the
    separator, [second], and the separator occurs nowhere earlier; it
    returns [false] exactly when the separator does not occur. *)
Theorem split_spec (inp sep : string) :
  (∀ first second,
     private_.split inp sep = Some (first, second) ↔
     inp = first +:+ sep +:+ second ∧
     ∀ a b, inp = a +:+ sep +:+ b → String.length first ≤ String.length a) ∧
  (private_.split inp sep = None ↔ ∀ a b, inp ≠ a +:+ sep +:+ b).
Proof.
  pose proof (find_spec inp sep) as Hf. unfold private_.split.
  unfold std_string.substr, std_string.size.
  destruct (std_string.find inp sep) as [n|].
  - destruct Hf as (a & b & -> & <- & Hmin).
    assert (Hfirst : String.substring 0 (String.length a) (a +:+ sep +:+ b) = a)
      by apply substring_0_app.
    assert (Hsecond :
      String.substring (String.length a + String.length sep)
        (String.length (a +:+ sep +:+ b) - String.length a - String.length sep)
        (a +:+ sep +:+ b) = b).
    { rewrite !string_app_length.
      replace (String.length a + (String.length sep + String.length b) -
               String.length a - String.length sep) with (String.length b) by lia.
      rewrite <- string_app_assoc, <- string_app_length.
      rewrite <- (Nat.add_0_r (String.length (a +:+ sep))).
      rewrite substring_skip_app. apply substring_0_length. }
    rewrite Hfirst, Hsecond. split.
    + intros first second. split.
      * by intros [= <- <-].
      * intros [Heq Hmin']. 
        assert (Hlen : String.length first = String.length a).
        { apply Nat.le_antisymm; [by eapply Hmin'|by eapply Hmin]. }
        assert (Hfa : first = a).
        { rewrite <- (substring_0_app first (sep +:+ second)), <- Heq, Hlen.
          apply substring_0_app. }
        subst first. apply String.app_inj in Heq. apply String.app_inj in Heq.
        by subst.
    + split; [done|]. intros Hn. by destruct (Hn a b).
  - split.
    + intros first second. split; [done|]. intros [Heq _]. by destruct (Hf _ _ Heq).
    + done.
Qed.

(** ** X6, X7: [strip_comment] *)

Lemma strip_comment_mark_step c s mark :
  private_.strip_comment_mark (String c s) mark =
  if std_string.mem c mark then EmptyString
  else String c (private_.strip_comment_mark s mark).
Proof.
  unfold private_.strip_comment_mark, std_string.erase_from.
  cbn [std_string.find_first_of].
  destruct (std_string.mem c mark); [done|].
  by destruct (std_string.find_first_of s mark).
Qed.

Lemma strip_comment_mark_decompose s mark :
  ∃ rest, s = private_.strip_comment_mark s mark +:+ rest ∧
          none_in mark (private_.strip_comment_mark s mark) ∧
          (rest = EmptyString ∨ starts_in mark rest).
Proof.
  induction s as [|c s (rest & Hs & Hn & Hrest)].
  - exists EmptyString. split_and!; [done..|by left].
  - rewrite strip_comment_mark_step. destruct (std_string.mem c mark) eqn:Hc.
    + exists (String c s). split_and!; [done..|]. right. by exists c, s.
    + exists rest. rewrite string_app_cons, <- Hs. by split_and!.
Qed.

Lemma strip_comment_mark_unique r rest mark :
  none_in mark r → rest = EmptyString ∨ starts_in mark rest →
  private_.strip_comment_mark (r +:+ rest) mark = r.
Proof.
  intros Hr Hrest. induction r as [|c r IH].
  - rewrite string_app_nil_l.
    destruct Hrest as [->|(c & t & -> & Hc)]; [done|].
    by rewrite strip_comment_mark_step, Hc.
  - destruct Hr as [Hc Hr].
    by rewrite string_app_cons, strip_comment_mark_step, Hc, IH.
Qed.

(** X6.  [strip_comment(s, mark)] returns [r] if and only if [s] is [r]
    followed by nothing or by a character of [mark], and no character of
    [r] is in [mark]: it keeps exactly the text before the first marker. *)
Theorem strip_comment_mark_spec (s mark r : string) :
  private_.strip_comment_mark s mark = r ↔
  ∃ rest, s = r +:+ rest ∧ none_in mark r ∧
          (rest = EmptyString ∨ starts_in mark rest).
Proof.
  split.
  - intros <-. apply strip_comment_mark_decompose.
  - intros (rest & -> & Hr & Hrest). by apply strip_comment_mark_unique.
Qed.

Lemma strip_comment_mark_compose s m1 m2 :
  private_.strip_comment_mark (private_.strip_comment_mark s m1) m2 =
  private_.strip_comment_mark s (m1 +:+ m2).
Proof.
  induction s as [|c s IH]; [done|].
  rewrite !strip_comment_mark_step, mem_app.
  destruct (std_string.mem c m1); [done|].
  rewrite strip_comment_mark_step, IH. by destruct (std_string.mem c m2).
Qed.

Lemma strip_comment_mark_ext s m1 m2 :
  (∀ c, std_string.mem c m1 = std_string.mem c m2) →
  private_.strip_comment_mark s m1 = private_.strip_comment_mark s m2.
Proof.
  intros Hm. induction s as [|c s IH]; [done|].
  by rewrite !strip_comment_mark_step, Hm, IH.
Qed.

Lemma strip_comment_one_pass s :
  private_.strip_comment s = private_.strip_comment_mark s "#;".
Proof. unfold private_.strip_comment. by rewrite strip_comment_mark_compose. Qed.

(** X7.  The two passes of the default [strip_comment] are one pass
    with the marker set ["#;"] and can be taken in either order; the
    result holds no ['#'] and no [';'], and stripping it again changes
    nothing. *)
Theorem strip_comment_single_pass (s : string) :
  private_.strip_comment s = private_.strip_comment_mark s "#;" ∧
  private_.strip_comment s =
    private_.strip_comment_mark (private_.strip_comment_mark s ";") "#" ∧
  none_in "#;" (private_.strip_comment s) ∧
  private_.strip_comment (private_.strip_comment s) = private_.strip_comment s.
Proof.
  pose proof (strip_comment_one_pass s) as Hone.
  assert (Hnone : none_in "#;" (private_.strip_comment s)).
  { rewrite Hone.
    by destruct (strip_comment_mark_decompose s "#;") as (rest & _ & Hn & _). }
  split_and!; [done| |done|].
  - rewrite Hone, strip_comment_mark_compose.
    apply strip_comment_mark_ext. intros c. cbv [String.append].
    cbn [std_string.mem].
    by destruct (Ascii.eqb c "#"), (Ascii.eqb c ";").
  - unfold private_.strip_comment at 1. rewrite strip_comment_mark_compose.
    rewrite <- (string_app_nil_r (private_.strip_comment s)) at 1.
    apply strip_comment_mark_unique; [done|by left].
Qed.

(** ** X8: the lines [std::getline] delivers *)

Lemma stream_lines_step c s :
  stream_lines (String c s) =
  if Ascii.eqb c "010" then EmptyString :: stream_lines s
  else match stream_lines s with
       | [] => [String c EmptyString]
       | line :: lines => String c line :: lines
       end.
Proof.
  rewrite stream_lines_cons. cbn [read_line].
  destruct (Ascii.eqb c "010"); [done|].
  destruct s as [|d s].
  - by rewrite stream_lines_empty.
  - rewrite (stream_lines_cons d s).
    by destruct (read_line (String d s)) as [line rest].
Qed.

Lemma stream_lines_nil s : stream_lines s = [] → s = EmptyString.
Proof.
  destruct s as [|c s]; [done|]. rewrite stream_lines_step.
  destruct (Ascii.eqb c "010"); [done|]. by destruct (stream_lines s).
Qed.

Lemma stream_lines_no_newline s line :
  line ∈ stream_lines s → std_string.mem "010" line = false.
Proof.
  revert line. induction s as [|c s IH]; intros line.
  - rewrite stream_lines_empty. by intros ?%elem_of_nil.
  - rewrite stream_lines_step. destruct (Ascii.eqb_spec c "010") as [->|Hc].
    + intros [->|Hin]%elem_of_cons; [done|by apply IH].
    + assert (Hhead : ∀ l, std_string.mem "010" l = false →
                      std_string.mem "010" (String c l) = false).
      { intros l Hl. cbn [std_string.mem]. rewrite Hl.
        destruct (Ascii.eqb_spec "010" c) as [<-|_]; [by destruct Hc|done]. }
      destruct (stream_lines s) as [|l ls].
      * intros ->%list_elem_of_singleton. by apply Hhead.
      * intros [->|Hin]%elem_of_cons.
        -- apply Hhead, IH. left.
        -- apply IH. by right.
Qed.

Lemma stream_lines_first line rest :
  std_string.mem "010" line = false →
  stream_lines (line +:+ LF +:+ rest) = line :: stream_lines rest.
Proof.
  induction line as [|c line IH].
  - intros _. rewrite string_app_nil_l. unfold LF.
    by rewrite string_app_cons, string_app_nil_l, stream_lines_step.
  - cbn [std_string.mem]. rewrite Ascii.eqb_sym.
    destruct (Ascii.eqb c "010") eqn:Hc; [done|]. intros Hline.
    by rewrite string_app_cons, stream_lines_step, Hc, IH.
Qed.

Lemma stream_lines_last line :
  line ≠ EmptyString → std_string.mem "010" line = false →
  stream_lines line = [line].
Proof.
  induction line as [|c line IH]; [done|]. intros _.
  cbn [std_string.mem]. rewrite Ascii.eqb_sym.
  destruct (Ascii.eqb c "010") eqn:Hc; [done|]. intros Hline.
  rewrite stream_lines_step, Hc. destruct line as [|d line].
  - by rewrite stream_lines_empty.
  - by rewrite IH.
Qed.

Lemma concat_cons_char c line lines :
  String.concat LF (String c line :: lines) =
  String c (String.concat LF (line :: lines)).
Proof. by destruct lines. Qed.

Lemma stream_lines_concat s :
  s = String.concat LF (stream_lines s) ∨
  s = String.concat LF (stream_lines s) +:+ LF.
Proof.
  induction s as [|c s IH]; [left; by rewrite stream_lines_empty|].
  rewrite stream_lines_step. destruct (Ascii.eqb_spec c "010") as [->|Hc].
  - destruct (stream_lines s) as [|l ls] eqn:Hs.
    + apply stream_lines_nil in Hs as ->. by right.
    + change (String.concat LF (EmptyString :: l :: ls))
        with (String "010" (String.concat LF (l :: ls))).
      rewrite string_app_cons. destruct IH as [IH|IH]; [left|right]; by f_equal.
  - destruct (stream_lines s) as [|l ls] eqn:Hs.
    + apply stream_lines_nil in Hs as ->. by left.
    + rewrite concat_cons_char, string_app_cons.
      destruct IH as [IH|IH]; [left|right]; by f_equal.
Qed.

(** X8.  The loop sees the document cut at its newline characters and
    loses nothing but a final newline: no line holds a newline, a
    newline-free text followed by a newline is delivered as one line
    before the lines of the rest, a last line without newline is still
    delivered, and joining the lines with newlines gives the document back,
    up to one newline at its end. *)
Theorem stream_lines_spec (s : string) :
  (∀ line, line ∈ stream_lines s → std_string.mem "010" line = false) ∧
  (∀ line rest, std_string.mem "010" line = false →
     stream_lines (line +:+ LF +:+ rest) = line :: stream_lines rest) ∧
  (∀ line, line ≠ EmptyString → std_string.mem "010" line = false →
     stream_lines line = [line]) ∧
  (s = String.concat LF (stream_lines s) ∨
   s = String.concat LF (stream_lines s) +:+ LF).
Proof.
  split_and!.
  - apply stream_lines_no_newline.
  - apply stream_lines_first.
  - apply stream_lines_last.
  - apply stream_lines_concat.
Qed.

(** ** X9, X10: blank lines and the final newline *)

Lemma stream_lines_app a b :
  stream_lines (a +:+ LF +:+ b) = stream_lines (a +:+ LF) ++ stream_lines b.
Proof.
  induction a as [|c a IH].
  - rewrite !string_app_nil_l. unfold LF.
    rewrite string_app_cons, string_app_nil_l, !stream_lines_step.
    by rewrite stream_lines_empty.
  - rewrite !string_app_cons, !stream_lines_step, IH.
    destruct (Ascii.eqb c "010"); [done|].
    destruct (stream_lines (a +:+ LF)) as [|l ls] eqn:Hs; [|done].
    apply stream_lines_nil in Hs. by destruct a.
Qed.

Lemma stream_lines_newline s :
  stream_lines (s +:+ LF) = stream_lines s ∨
  stream_lines (s +:+ LF) = stream_lines s ++ [EmptyString].
Proof.
  induction s as [|c s IH].
  - right. rewrite string_app_nil_l. unfold LF.
    by rewrite stream_lines_step, !stream_lines_empty.
  - rewrite string_app_cons, !stream_lines_step.
    destruct (Ascii.eqb c "010").
    + destruct IH as [->| ->]; [by left|by right].
    + destruct IH as [->| ->]; [by left|].
      destruct (stream_lines s); [by left|by right].
Qed.

Lemma parse_lines_app l1 l2 st :
  parse_lines (l1 ++ l2) st =
  match parse_lines l1 st with
  | inl e => throw e
  | inr st' => parse_lines l2 st'
  end.
Proof.
  revert st. induction l1 as [|l l1 IH]; intros st; [done|].
  simpl. destruct (parse_line l st) as [e|st']; [done|]. apply IH.
Qed.

Lemma parse_line_blank line st :
  spec_prepare line = EmptyString → parse_line line st = ret st.
Proof.
  intros Hp. by rewrite parse_line_spec, (spec_line_blank _ Hp).
Qed.

Lemma parse_lines_newline s st :
  parse_lines (stream_lines (s +:+ LF)) st = parse_lines (stream_lines s) st.
Proof.
  destruct (stream_lines_newline s) as [->| ->]; [done|].
  rewrite parse_lines_app. destruct (parse_lines (stream_lines s) st); [done|].
  simpl. by rewrite parse_line_blank.
Qed.

(** X9.  A final newline does not change what the constructor does. *)
Theorem trailing_newline_ignored (s : string) :
  inifile_ctor (s +:+ LF) = inifile_ctor s.
Proof. by rewrite !inifile_ctor_lines, parse_lines_newline. Qed.

(** X10.  A line that is empty once trimmed and stripped of its comment
    can be inserted between any two parts of a document without changing
    what the constructor does; a document of such lines only gives the
    empty store. *)
Theorem blank_line_ignored (a line b : string) :
  std_string.mem "010" line = false →
  private_.strip_comment (private_.trim line) = EmptyString →
  inifile_ctor (a +:+ LF +:+ line +:+ LF +:+ b) = inifile_ctor (a +:+ LF +:+ b) ∧
  inifile_ctor line = ret (mk_inifile ∅ ∅).
Proof.
  intros Hline Hblank. split.
  - rewrite !inifile_ctor_lines, !(stream_lines_app a).
    rewrite (stream_lines_first line b Hline).
    rewrite !parse_lines_app.
    destruct (parse_lines (stream_lines (a +:+ LF)) _) as [e|st]; [done|].
    simpl. by rewrite parse_line_blank.
  - rewrite inifile_ctor_lines. destruct line as [|c line].
    + by rewrite stream_lines_empty.
    + rewrite stream_lines_last by done. cbn [parse_lines].
      by rewrite parse_line_blank.
Qed.

Lemma blank_line_ignored_witness :
  std_string.mem "010" "  # note" = false ∧
  private_.strip_comment (private_.trim "  # note") = EmptyString ∧
  inifile_ctor ("k=1" +:+ LF +:+ "  # note" +:+ LF +:+ "j=2") =
    inifile_ctor ("k=1" +:+ LF +:+ "j=2").
Proof.
  split_and!; [reflexivity|reflexivity|].
  exact (proj1 (blank_line_ignored "k=1" "  # note" "j=2" eq_refl eq_refl)).
Defined.

(** X11.  White space followed by a comment, and white space alone, is
    such a line: the loop body leaves its state as it is. *)
Theorem comment_line_skipped (w text : string) (m : ascii)
    (st : cursec_t * inifile) :
  all_whitespace w →
  (m = "#" ∨ m = ";")%char →
  parse_line (w +:+ String m text) st = ret st ∧ parse_line w st = ret st.
Proof.
  intros Hw Hm. apply all_whitespace_all_in in Hw.
  assert (Hmem : std_string.mem m private_.whitespace = false)
    by (by destruct Hm as [-> | ->]).
  assert (Hmark : std_string.mem m "#;" = true)
    by (by destruct Hm as [-> | ->]).
  split; apply parse_line_blank; unfold spec_prepare, private_.trim.
  - assert (Htrim : private_.trim_with (w +:+ String m text) private_.whitespace
                    = String m (private_.rstrip text private_.whitespace)).
    { unfold private_.trim_with. rewrite lstrip_unique; [|done|].
      - rewrite <- (string_app_nil_l (String m text)).
        by rewrite rstrip_app.
      - intros (c & r & [= <- <-] & Hc). congruence. }
    by rewrite Htrim, strip_comment_one_pass, strip_comment_mark_step, Hmark.
  - by rewrite trim_with_all_in.
Qed.

Lemma comment_line_skipped_witness :
  all_whitespace "  " ∧
  parse_line "  ; a note" (Some "a", mk_inifile ∅ ∅) =
    ret (Some "a", mk_inifile ∅ ∅).
Proof.
  assert (Hw : all_whitespace "  ") by (repeat split).
  split; [exact Hw|].
  exact (proj1 (comment_line_skipped "  " " a note" ";"
                  (Some "a", mk_inifile ∅ ∅) Hw (or_intror eq_refl))).
Defined.

(** ** X12, X13: extending a document, and where [cursec] points *)

Lemma spec_tokens_app l1 l2 :
  spec_tokens (l1 ++ l2) = spec_tokens l1 ++ spec_tokens l2.
Proof. unfold spec_tokens. apply omap_app. Qed.

Lemma spec_tokens_newline s :
  spec_tokens (stream_lines (s +:+ LF)) = spec_tokens (stream_lines s).
Proof.
  destruct (stream_lines_newline s) as [->| ->]; [done|].
  rewrite spec_tokens_app. apply app_nil_r.
Qed.

Lemma foldl_tokens_cursec ts st :
  (foldl (flip apply_token) st ts).1 = last_header st.1 ts.
Proof.
  unfold last_header. revert st.
  induction ts as [|t ts IH]; intros st; simpl; [done|].
  rewrite IH. by destruct t.
Qed.

Lemma initial_state_valid : cursec_valid (None, mk_inifile ∅ ∅).
Proof. by intros name [=]. Qed.

Lemma inifile_ctor_extend a b :
  inifile_ctor (a +:+ LF +:+ b) =
  match parse_lines (stream_lines a) (None, mk_inifile ∅ ∅) with
  | inl e => throw e
  | inr st =>
      match parse_lines (stream_lines b) st with
      | inl e => throw e
      | inr (_, ini) => ret ini
      end
  end.
Proof.
  rewrite inifile_ctor_lines, stream_lines_app, parse_lines_app.
  rewrite parse_lines_newline.
  by destruct (parse_lines (stream_lines a) (None, mk_inifile ∅ ∅)).
Qed.

(** X12.  Parsing [a], a newline and [b] is parsing [a] and going on
    with the lines of [b] in the section [a] ended in: an exception of
    [a] is the exception of the whole; otherwise every section of [a] is
    kept, and a pair (section, key) holds the last value [b] gives it
    there, or else the value it had after [a].  Nothing is ever removed. *)
Theorem inifile_ctor_extension (a b : string) :
  (∀ e, inifile_ctor a = throw e → inifile_ctor (a +:+ LF +:+ b) = throw e) ∧
  (∀ ia iab,
     inifile_ctor a = ret ia →
     inifile_ctor (a +:+ LF +:+ b) = ret iab →
     (∀ name, is_Some (sections_ ia !! name) → is_Some (sections_ iab !! name)) ∧
     (∀ sec key,
        store_lookup iab sec key =
        match spec_last sec key
                (spec_entries (last_header None (spec_tokens (stream_lines a)))
                              (spec_tokens (stream_lines b))) with
        | Some value => Some value
        | None => store_lookup ia sec key
        end) ∧
     (∀ sec key, is_Some (store_lookup ia sec key) →
                 is_Some (store_lookup iab sec key))).
Proof.
  rewrite inifile_ctor_extend, inifile_ctor_lines.
  destruct (parse_lines (stream_lines a) (None, mk_inifile ∅ ∅))
    as [e|[cur ia']] eqn:Ha.
  { split; [done|]. by intros ia iab [=]. }
  split; [by intros e [=]|]. intros ia iab [= ->].
  destruct (parse_lines (stream_lines b) (cur, ia)) as [e|[cur' iab']] eqn:Hb;
    [done|]. intros [= ->].
  apply parse_lines_tokens in Ha, Hb.
  destruct (foldl_tokens_store (spec_tokens (stream_lines a))
              (None, mk_inifile ∅ ∅) initial_state_valid) as (Hva & _ & _).
  rewrite <- Ha in Hva.
  pose proof (foldl_tokens_cursec (spec_tokens (stream_lines a))
                (None, mk_inifile ∅ ∅)) as Hcur.
  rewrite <- Ha in Hcur. cbn [fst] in Hcur. subst cur.
  destruct (foldl_tokens_store (spec_tokens (stream_lines b)) _ Hva)
    as (_ & Hl & Hd).
  rewrite <- Hb in Hl, Hd. cbn [fst snd] in Hl, Hd.
  assert (Hlookup : ∀ sec key,
    store_lookup iab sec key =
    match spec_last sec key
            (spec_entries (last_header None (spec_tokens (stream_lines a)))
                          (spec_tokens (stream_lines b))) with
    | Some value => Some value
    | None => store_lookup ia sec key
    end).
  { intros sec key. rewrite Hl. by destruct (spec_last _ _ _). }
  split_and!; [|done|].
  - intros name Hname. apply Hd. by left.
  - intros sec key Hsome. rewrite Hlookup. by destruct (spec_last _ _ _).
Qed.

Lemma inifile_ctor_extension_witness :
  inifile_ctor "[a" = throw (syntax_error "The section '[a' is missing a closing bracket.") ∧
  inifile_ctor ("[a" +:+ LF +:+ "k=1") =
    throw (syntax_error "The section '[a' is missing a closing bracket.").
Proof.
  assert (Ha : inifile_ctor "[a" =
    throw (syntax_error "The section '[a' is missing a closing bracket."))
    by reflexivity.
  split; [exact Ha|].
  exact (proj1 (inifile_ctor_extension "[a" "k=1") _ Ha).
Defined.

(** X13.  When the loop ends normally, [cursec] points at the map of the
    last header of the document, which exists in the store, or at the
    default section when the document has no header: the assignment
    through [cursec] never misses its map. *)
Theorem parse_loop_cursec (infile : string) (cur : cursec_t) (ini : inifile) :
  parse_loop infile (None, mk_inifile ∅ ∅) = ret (cur, ini) →
  cur = last_header None (spec_tokens (stream_lines infile)) ∧
  (∀ name, cur = Some name → is_Some (sections_ ini !! name)) ∧
  (cur = None ↔ ∀ name, THeader name ∉ spec_tokens (stream_lines infile)) ∧
  inifile_ctor infile = ret ini.
Proof.
  intros Hloop. assert (Hctor : inifile_ctor infile = ret ini)
    by (unfold inifile_ctor; by rewrite Hloop).
  rewrite parse_loop_lines in Hloop. apply parse_lines_tokens in Hloop.
  destruct (foldl_tokens_store (spec_tokens (stream_lines infile))
              (None, mk_inifile ∅ ∅) initial_state_valid) as (Hv & _ & _).
  pose proof (foldl_tokens_cursec (spec_tokens (stream_lines infile))
                (None, mk_inifile ∅ ∅)) as Hcur.
  rewrite <- Hloop in Hv, Hcur. cbn [fst] in Hcur.
  split_and!; [done|exact Hv| |done].
  rewrite Hcur. clear. generalize (spec_tokens (stream_lines infile)).
  intros ts. induction ts as [|t ts IH] using rev_ind.
  - split; [|done]. intros _ name. apply not_elem_of_nil.
  - unfold last_header in *. rewrite foldl_app. cbn [foldl].
    destruct t as [name|k v].
    + split; [done|]. intros Hn. destruct (Hn name).
      apply elem_of_app. right. left.
    + rewrite IH. split.
      * intros Hn name [Hin|Hin]%elem_of_app; [by eapply Hn|].
        by apply list_elem_of_singleton in Hin.
      * intros Hn name Hin. apply (Hn name). apply elem_of_app. by left.
Qed.

Lemma parse_loop_cursec_witness :
  parse_loop doc_default_section (None, mk_inifile ∅ ∅) =
    ret (Some "a", store_of doc_default_section) ∧
  is_Some (sections_ (store_of doc_default_section) !! "a").
Proof.
  assert (Hloop : parse_loop doc_default_section (None, mk_inifile ∅ ∅) =
                  ret (Some "a", store_of doc_default_section))
    by (vm_compute; reflexivity).
  split; [exact Hloop|].
  exact (proj1 (proj2 (parse_loop_cursec _ _ _ Hloop)) "a" eq_refl).
Defined.

(** ** X14: what the store can hold *)

Lemma mem_app_false c a b :
  std_string.mem c (a +:+ b) = false ↔
  std_string.mem c a = false ∧ std_string.mem c b = false.
Proof. rewrite mem_app. apply orb_false_iff. Qed.

Lemma none_in_mem set s c :
  none_in set s → std_string.mem c set = true → std_string.mem c s = false.
Proof.
  intros Hs Hc. induction s as [|d s IH]; [done|]. destruct Hs as [Hd Hs].
  cbn [std_string.mem]. rewrite (IH Hs).
  destruct (Ascii.eqb_spec c d) as [->|_]; [congruence|done].
Qed.

Lemma all_in_mem set s c :
  all_in set s → std_string.mem c set = false → std_string.mem c s = false.
Proof.
  intros Hs Hc. induction s as [|d s IH]; [done|]. destruct Hs as [Hd Hs].
  cbn [std_string.mem]. rewrite (IH Hs).
  destruct (Ascii.eqb_spec c d) as [->|_]; [congruence|done].
Qed.

Lemma mem_none_in set s :
  (∀ c, std_string.mem c set = true → std_string.mem c s = false) →
  none_in set s.
Proof.
  induction s as [|d s IH]; [done|]. intros Hs. split.
  - destruct (std_string.mem d set) eqn:Hd; [|done].
    specialize (Hs d Hd). cbn [std_string.mem] in Hs.
    by rewrite Ascii.eqb_refl in Hs.
  - apply IH. intros c Hc. specialize (Hs c Hc). cbn [std_string.mem] in Hs.
    by destruct (Ascii.eqb c d).
Qed.

Lemma trim_with_mem c s set :
  std_string.mem c s = false → std_string.mem c (private_.trim_with s set) = false.
Proof.
  destruct (trim_decompose s set) as (l & r & Hs & _). intros Hc.
  rewrite Hs in Hc. by apply mem_app_false in Hc as [_ [? _]%mem_app_false].
Qed.

Lemma strip_comment_mem c s :
  std_string.mem c s = false → std_string.mem c (private_.strip_comment s) = false.
Proof.
  rewrite strip_comment_one_pass.
  destruct (strip_comment_mark_decompose s "#;") as (rest & Hs & _). intros Hc.
  rewrite Hs in Hc. by apply mem_app_false in Hc as [? _].
Qed.

Lemma strip_comment_no_marker c s :
  std_string.mem c "#;" = true →
  std_string.mem c (private_.strip_comment s) = false.
Proof.
  rewrite strip_comment_one_pass.
  destruct (strip_comment_mark_decompose s "#;") as (rest & _ & Hn & _).
  by apply none_in_mem.
Qed.

Lemma strip_comment_first c body s :
  private_.strip_comment s = String c body → ∃ body', s = String c body'.
Proof.
  rewrite strip_comment_one_pass. destruct s as [|d s]; [done|].
  rewrite strip_comment_mark_step. destruct (std_string.mem d "#;"); [done|].
  intros [= -> _]. by eexists.
Qed.

Lemma spec_prepare_first c body line :
  spec_prepare line = String c body →
  std_string.mem c private_.whitespace = false.
Proof.
  unfold spec_prepare, private_.trim. intros [body' Ht]%strip_comment_first.
  destruct (trim_decompose line private_.whitespace) as (_ & _ & _ & _ & _ & Hs & _).
  destruct (std_string.mem c private_.whitespace) eqn:Hc; [|done].
  destruct Hs. exists c, body'. by rewrite Ht.
Qed.

Lemma spec_prepare_mem c line :
  std_string.mem c line = false → std_string.mem c (spec_prepare line) = false.
Proof. intros Hc. by apply strip_comment_mem, trim_with_mem. Qed.

Lemma spec_cut_Some c s k v :
  spec_cut c s = Some (k, v) → s = k +:+ String c v ∧ std_string.mem c k = false.
Proof.
  revert k. induction s as [|d s IH]; intros k; simpl; [done|].
  destruct (Ascii.eqb_spec d c) as [->|Hne].
  - by intros [= <- <-].
  - destruct (spec_cut c s) as [[k' v']|]; [|done]. intros [= <- <-].
    destruct (IH k' eq_refl) as [-> Hk]. split; [done|].
    cbn [std_string.mem]. rewrite Hk.
    destruct (Ascii.eqb_spec c d) as [->|_]; [done|done].
Qed.

Lemma spec_cut_app c k v :
  std_string.mem c k = false → spec_cut c (k +:+ String c v) = Some (k, v).
Proof.
  induction k as [|d k IH].
  - intros _. rewrite string_app_nil_l. simpl. by rewrite Ascii.eqb_refl.
  - cbn [std_string.mem]. rewrite Ascii.eqb_sym.
    destruct (Ascii.eqb d c) eqn:Hd; [done|]. intros Hk.
    rewrite string_app_cons. cbn [spec_cut]. by rewrite Hd, IH.
Qed.

Lemma trim_keeps_first c s :
  std_string.mem c private_.whitespace = false →
  ∃ t, private_.trim (String c s) = String c t.
Proof.
  intros Hc. unfold private_.trim, private_.trim_with.
  rewrite lstrip_step, Hc, rstrip_cons.
  destruct (std_string.find_last_not_of s private_.whitespace); [by eexists|].
  rewrite Hc. by eexists.
Qed.

Lemma spec_line_entry_clean line key value :
  std_string.mem "010" line = false →
  spec_line line = Token (TEntry key value) →
  clean_key key ∧ clean_text value.
Proof.
  intros Hnl. destruct (spec_prepare line) as [|c body] eqn:Hp.
  { by rewrite (spec_line_blank _ Hp). }
  destruct (decide (c = "["%char)) as [->|Hc].
  { rewrite (spec_line_bracket _ _ Hp). by destruct (spec_drop_last "]" body). }
  rewrite (spec_line_other _ _ _ Hp Hc).
  destruct (spec_cut "=" (String c body)) as [[k0 v0]|] eqn:Hcut; [|done].
  intros [= <- <-]. apply spec_cut_Some in Hcut as [Heq Hk0].
  pose proof (spec_prepare_first _ _ _ Hp) as Hfirst.
  assert (Hfree : ∀ d, std_string.mem d line = false ∨
                       std_string.mem d "#;" = true →
            std_string.mem d k0 = false ∧ std_string.mem d v0 = false).
  { intros d Hd.
    assert (Hdp : std_string.mem d (spec_prepare line) = false).
    { destruct Hd as [Hd|Hd]; [by apply spec_prepare_mem|].
      by apply strip_comment_no_marker. }
    rewrite Hp, Heq in Hdp. apply mem_app_false in Hdp as [? Hv].
    cbn [std_string.mem] in Hv. by destruct (Ascii.eqb d "="). }
  destruct (Hfree "#"%char) as [Hk1 Hv1]; [by right|].
  destruct (Hfree ";"%char) as [Hk2 Hv2]; [by right|].
  destruct (Hfree "010"%char) as [Hk3 Hv3]; [by left|].
  split.
  - split_and!; try (by apply trim_with_mem).
    + apply trim_with_idempotent.
    + intros [t Ht]. destruct k0 as [|c' k0]; [done|].
      rewrite string_app_cons in Heq. injection Heq as <- _.
      destruct (trim_keeps_first c k0 Hfirst) as [t' Ht'].
      rewrite Ht' in Ht. by injection Ht as ->.
  - split_and!; try (by apply trim_with_mem). apply trim_with_idempotent.
Qed.

Lemma spec_line_header_clean line name :
  std_string.mem "010" line = false →
  spec_line line = Token (THeader name) → clean_text name.
Proof.
  intros Hnl. destruct (spec_prepare line) as [|c body] eqn:Hp.
  { by rewrite (spec_line_blank _ Hp). }
  destruct (decide (c = "["%char)) as [->|Hc].
  - rewrite (spec_line_bracket _ _ Hp).
    destruct (spec_drop_last "]" body) as [inner|] eqn:Hd; [|done].
    intros [= <-]. apply spec_drop_last_Some in Hd. subst body.
    assert (Hfree : ∀ d, std_string.mem d line = false ∨
                         std_string.mem d "#;" = true →
                         std_string.mem d inner = false).
    { intros d Hd.
      assert (Hdp : std_string.mem d (spec_prepare line) = false).
      { destruct Hd as [Hd|Hd]; [by apply spec_prepare_mem|].
        by apply strip_comment_no_marker. }
      rewrite Hp in Hdp. cbn [std_string.mem] in Hdp.
      destruct (Ascii.eqb d "["); [done|].
      by apply mem_app_false in Hdp as [? _]. }
    split_and!; try (apply trim_with_mem, Hfree; by auto).
    apply trim_with_idempotent.
  - rewrite (spec_line_other _ _ _ Hp Hc).
    by destruct (spec_cut "=" (String c body)) as [[k0 v0]|].
Qed.

(** X14.  After a successful parse every stored key and value and every
    section name is trimmed and holds no comment marker and no newline;
    a key holds no ['='] and does not begin with ['[']. *)
Theorem stored_text_clean (infile : string) (ini : inifile) :
  inifile_ctor infile = ret ini →
  (∀ sec key value,
     store_lookup ini sec key = Some value → clean_key key ∧ clean_text value) ∧
  (∀ name, is_Some (sections_ ini !! name) → clean_text name).
Proof.
  intros Hctor. destruct (inifile_ctor_store _ _ Hctor) as [Hl Hd]. split.
  - intros sec key value. rewrite Hl.
    intros Hin%spec_last_elem%spec_entries_token.
    apply spec_tokens_elem in Hin as (line & Hin & Hline).
    apply stream_lines_no_newline in Hin. by eapply spec_line_entry_clean.
  - intros name Hname. apply Hd, spec_tokens_elem in Hname
      as (line & Hin & Hline).
    apply stream_lines_no_newline in Hin. by eapply spec_line_header_clean.
Qed.

Lemma stored_text_clean_witness :
  inifile_ctor doc_default_section = ret (store_of doc_default_section) ∧
  clean_key "k" ∧ clean_text "2".
Proof.
  assert (Hctor : inifile_ctor doc_default_section =
                  ret (store_of doc_default_section))
    by (vm_compute; reflexivity).
  split; [exact Hctor|].
  apply (proj1 (stored_text_clean _ _ Hctor) (Some "a") "k" "2").
  vm_compute. reflexivity.
Defined.

(** ** X15, X16: padding around entries and headers *)

Lemma strip_comment_mark_app_free a t mark :
  none_in mark a →
  private_.strip_comment_mark (a +:+ t) mark =
  a +:+ private_.strip_comment_mark t mark.
Proof.
  intros Ha. induction a as [|c a IH]; [done|]. destruct Ha as [Hc Ha].
  by rewrite !string_app_cons, strip_comment_mark_step, Hc, IH.
Qed.

Lemma marker_free_none_in s :
  std_string.mem "#" s = false → std_string.mem ";" s = false → none_in "#;" s.
Proof.
  intros Hh Hs. apply mem_none_in. intros c. cbn [std_string.mem].
  destruct (Ascii.eqb_spec c "#") as [->|_]; [done|].
  destruct (Ascii.eqb_spec c ";") as [->|_]; done.
Qed.

Lemma whitespace_none_in w : all_whitespace w → none_in "#;" w.
Proof.
  intros Hw. apply marker_free_none_in; apply all_whitespace_mem; auto.
Qed.

Lemma trim_padding l s r :
  all_whitespace l → all_whitespace r →
  private_.trim (l +:+ s +:+ r) = private_.trim s.
Proof.
  intros Hl%all_whitespace_all_in Hr%all_whitespace_all_in.
  by apply trim_with_padding.
Qed.

Lemma trim_rstrip s :
  private_.trim (private_.rstrip s private_.whitespace) = private_.trim s.
Proof.
  destruct (rstrip_decompose s private_.whitespace) as (r & Hs & Hr & _).
  rewrite Hs at 2. unfold private_.trim.
  rewrite <- (string_app_nil_l (private_.rstrip s private_.whitespace +:+ r)).
  by rewrite trim_with_padding.
Qed.

Lemma entry_head_trim key w2 :
  clean_key key → all_whitespace w2 → private_.trim (entry_head key w2) = key.
Proof.
  intros (Hk & _) Hw2. unfold entry_head. destruct key as [|c k]; [done|].
  rewrite <- Hk at 2. rewrite <- (string_app_nil_l (String c k +:+ w2)).
  by apply trim_padding.
Qed.

Lemma entry_head_free c key w2 :
  all_whitespace w2 →
  std_string.mem c key = false →
  std_string.mem c private_.whitespace = false →
  std_string.mem c (entry_head key w2) = false.
Proof.
  intros Hw2 Hk Hc. unfold entry_head. destruct key as [|d k]; [done|].
  apply mem_app_false. split; [done|].
  apply all_in_mem with private_.whitespace; [|done].
  by apply all_whitespace_all_in.
Qed.

Lemma entry_lstrip w1 w2 key tail :
  all_whitespace w1 → all_whitespace w2 → clean_key key →
  private_.lstrip (w1 +:+ key +:+ w2 +:+ "=" +:+ tail) private_.whitespace =
  entry_head key w2 +:+ "=" +:+ tail.
Proof.
  intros Hw1 Hw2 (Hk & _). unfold entry_head. destruct key as [|c k].
  - rewrite !string_app_nil_l, <- string_app_assoc.
    apply lstrip_unique.
    + apply all_in_app. split; by apply all_whitespace_all_in.
    + by intros (d & r & [= <- <-] & Hd).
  - rewrite string_app_assoc. apply lstrip_unique.
    + by apply all_whitespace_all_in.
    + intros (d & r & Heq & Hd). rewrite !string_app_cons in Heq.
      injection Heq as <- _.
      destruct (trim_decompose (String c k) private_.whitespace)
        as (_ & _ & _ & _ & _ & Hs & _).
      unfold private_.trim in Hk. rewrite Hk in Hs. apply Hs. by exists c, k.
Qed.

Lemma entry_tail_prepared w3 w4 value comment :
  all_whitespace w3 → all_whitespace w4 → clean_text value →
  comment = EmptyString ∨ starts_in "#;" comment →
  private_.trim
    (private_.strip_comment
       (private_.rstrip (w3 +:+ value +:+ w4 +:+ comment) private_.whitespace))
  = value.
Proof.
  intros Hw3 Hw4 (Hv & Hh & Hs & _) Hcomment.
  assert (Hcore : none_in "#;" (w3 +:+ value +:+ w4)).
  { apply none_in_app. split; [by apply whitespace_none_in|].
    apply none_in_app. split; [by apply marker_free_none_in|].
    by apply whitespace_none_in. }
  destruct Hcomment as [->|(m & text & -> & Hm)].
  - rewrite !string_app_nil_r, strip_comment_one_pass.
    destruct (rstrip_decompose (w3 +:+ value +:+ w4) private_.whitespace)
      as (r & Hd & _).
    rewrite Hd in Hcore. apply none_in_app in Hcore as [Hcore _].
    rewrite <- (string_app_nil_r (private_.rstrip _ _)) at 1.
    rewrite strip_comment_mark_unique by (done || by left).
    by rewrite trim_rstrip, trim_padding.
  - replace (w3 +:+ value +:+ w4 +:+ String m text)
      with ((w3 +:+ value +:+ w4) +:+ String m text)
      by (by rewrite !string_app_assoc).
    rewrite rstrip_app.
    + rewrite strip_comment_one_pass, strip_comment_mark_unique; [| done |].
      * by rewrite trim_padding.
      * right. by eexists _, _.
    + cbn [std_string.mem] in Hm.
      destruct (Ascii.eqb_spec m "#") as [->|_]; [done|].
      destruct (Ascii.eqb_spec m ";") as [->|_]; done.
Qed.

Lemma entry_prepare w1 w2 key tail :
  all_whitespace w1 → all_whitespace w2 → clean_key key →
  spec_prepare (w1 +:+ key +:+ w2 +:+ "=" +:+ tail) =
  entry_head key w2 +:+ "=" +:+
  private_.strip_comment (private_.rstrip tail private_.whitespace).
Proof.
  intros Hw1 Hw2 Hkey. pose proof Hkey as (_ & Hh & Hs & _).
  unfold spec_prepare, private_.trim, private_.trim_with.
  rewrite entry_lstrip by done.
  change (entry_head key w2 +:+ "=" +:+ tail)
    with (entry_head key w2 +:+ String "=" tail).
  rewrite rstrip_app by done.
  rewrite !strip_comment_one_pass.
  change (entry_head key w2 +:+
          String "=" (private_.rstrip tail private_.whitespace))
    with (entry_head key w2 +:+ "=" +:+
          private_.rstrip tail private_.whitespace).
  rewrite <- string_app_assoc, strip_comment_mark_app_free.
  - by rewrite string_app_assoc.
  - apply none_in_app. split; [|done].
    apply marker_free_none_in; by apply entry_head_free.
Qed.

Lemma entry_spec_line w1 w2 w3 w4 key value comment :
  all_whitespace w1 → all_whitespace w2 →
  all_whitespace w3 → all_whitespace w4 →
  clean_key key → clean_text value →
  comment = EmptyString ∨ starts_in "#;" comment →
  spec_line (w1 +:+ key +:+ w2 +:+ "=" +:+ w3 +:+ value +:+ w4 +:+ comment) =
  Token (TEntry key value).
Proof.
  intros Hw1 Hw2 Hw3 Hw4 Hkey Hvalue Hcomment.
  pose proof (entry_prepare w1 w2 key (w3 +:+ value +:+ w4 +:+ comment)
                Hw1 Hw2 Hkey) as Hp.
  pose proof (entry_tail_prepared w3 w4 value comment Hw3 Hw4 Hvalue Hcomment)
    as Htail.
  set (v0 := private_.strip_comment
               (private_.rstrip (w3 +:+ value +:+ w4 +:+ comment)
                                private_.whitespace)) in *.
  assert (Hcut : spec_cut "=" (entry_head key w2 +:+ String "=" v0) =
                 Some (entry_head key w2, v0)).
  { apply spec_cut_app. destruct Hkey as (_ & _ & _ & He & _).
    by apply entry_head_free. }
  change (entry_head key w2 +:+ "=" +:+ v0)
    with (entry_head key w2 +:+ String "=" v0) in Hp.
  assert (Hfirst : ∃ c body, entry_head key w2 +:+ String "=" v0 = String c body ∧
                             c ≠ "["%char).
  { unfold entry_head. destruct key as [|c k].
    - by exists "="%char, v0.
    - exists c, ((k +:+ w2) +:+ String "=" v0). split; [done|].
      intros ->. destruct Hkey as (_ & _ & _ & _ & _ & Hb).
      apply Hb. by exists k. }
  destruct Hfirst as (c & body & Heq & Hc). rewrite Heq in Hp, Hcut.
  rewrite (spec_line_other _ _ _ Hp Hc), Hcut.
  by rewrite entry_head_trim, Htail.
Qed.

(** X15.  An entry line may carry white space before the key, around
    the ['='] and after the value, and a comment at its end: the loop
    body binds the clean key to the clean value in the current section
    all the same. *)
Theorem entry_line_padding (w1 w2 w3 w4 key value comment : string)
    (st : cursec_t * inifile) :
  all_whitespace w1 → all_whitespace w2 →
  all_whitespace w3 → all_whitespace w4 →
  clean_key key → clean_text value →
  comment = EmptyString ∨ starts_in "#;" comment →
  parse_line (w1 +:+ key +:+ w2 +:+ "=" +:+ w3 +:+ value +:+ w4 +:+ comment) st =
  ret (st.1, cursec_assign st.1 key value st.2).
Proof.
  intros H1 H2 H3 H4 Hk Hv Hc.
  by rewrite parse_line_spec,
    (entry_spec_line w1 w2 w3 w4 key value comment H1 H2 H3 H4 Hk Hv Hc).
Qed.

Lemma entry_line_padding_witness :
  all_whitespace "  " ∧ all_whitespace " " ∧ all_whitespace "" ∧
  clean_key "key" ∧ clean_text "some value" ∧
  starts_in "#;" "; note" ∧
  parse_line "  key = some value ; note" (Some "a", mk_inifile {[ "a" := ∅ ]} ∅) =
    ret (Some "a", mk_inifile {[ "a" := {[ "key" := "some value" ]} ]} ∅).
Proof.
  assert (Hw2 : all_whitespace "  ") by (repeat split).
  assert (Hw1 : all_whitespace " ") by (repeat split).
  assert (Hw0 : all_whitespace "") by exact I.
  assert (Hkey : clean_key "key").
  { split_and!; try reflexivity. by intros [t [=]]. }
  assert (Hvalue : clean_text "some value") by (split_and!; reflexivity).
  assert (Hcomment : starts_in "#;" "; note") by (by eexists _, _).
  split_and!; [done..|].
  rewrite (entry_line_padding "  " " " " " " " "key" "some value" "; note"
             (Some "a", mk_inifile {[ "a" := ∅ ]} ∅)
             Hw2 Hw1 Hw1 Hw1 Hkey Hvalue (or_intror Hcomment)).
  vm_compute. reflexivity.
Defined.

Lemma header_spec_line w1 w2 w3 w4 name :
  all_whitespace w1 → all_whitespace w2 →
  all_whitespace w3 → all_whitespace w4 →
  clean_text name →
  spec_line (w1 +:+ "[" +:+ w2 +:+ name +:+ w3 +:+ "]" +:+ w4) =
  Token (THeader name).
Proof.
  intros Hw1 Hw2 Hw3 Hw4 (Hn & Hh & Hs & _).
  set (inner := w2 +:+ name +:+ w3).
  assert (Hline : w1 +:+ "[" +:+ w2 +:+ name +:+ w3 +:+ "]" +:+ w4 =
                  w1 +:+ String "[" (inner +:+ "]") +:+ w4).
  { unfold inner.
    by rewrite !string_app_cons, string_app_nil_l, !string_app_assoc. }
  assert (Htrim : private_.trim (w1 +:+ String "[" (inner +:+ "]") +:+ w4) =
                  String "[" (inner +:+ "]")).
  { apply trim_unique; try (by apply all_whitespace_all_in).
    - by intros (c & r & [= <- <-] & Hc).
    - intros (r & c & Heq & Hc).
      change (String "[" (inner +:+ "]"))
        with (String "[" inner +:+ String "]" EmptyString) in Heq.
      by apply string_app_inv_tail in Heq as [_ <-]. }
  assert (Hfree : none_in "#;" (String "[" (inner +:+ "]"))).
  { split; [done|]. apply none_in_app. split; [|done]. unfold inner.
    apply none_in_app. split; [by apply whitespace_none_in|].
    apply none_in_app. split; [by apply marker_free_none_in|].
    by apply whitespace_none_in. }
  assert (Hp : spec_prepare (w1 +:+ String "[" (inner +:+ "]") +:+ w4) =
               String "[" (inner +:+ "]")).
  { unfold spec_prepare. rewrite Htrim, strip_comment_one_pass.
    rewrite <- (string_app_nil_r (String "[" (inner +:+ "]"))) at 1.
    apply strip_comment_mark_unique; [done|by left]. }
  rewrite Hline, (spec_line_bracket _ _ Hp), spec_drop_last_app.
  unfold inner. by rewrite trim_padding, Hn.
Qed.

(** X16.  A header line may carry white space before the opening
    bracket, inside the brackets around the name and after the closing
    bracket: the loop body makes the section of the clean name current,
    creating it when it is new. *)
Theorem header_line_padding (w1 w2 w3 w4 name : string)
    (st : cursec_t * inifile) :
  all_whitespace w1 → all_whitespace w2 →
  all_whitespace w3 → all_whitespace w4 →
  clean_text name →
  parse_line (w1 +:+ "[" +:+ w2 +:+ name +:+ w3 +:+ "]" +:+ w4) st =
  ret (Some name, sections_index name st.2).
Proof.
  intros H1 H2 H3 H4 Hn.
  by rewrite parse_line_spec, (header_spec_line w1 w2 w3 w4 name H1 H2 H3 H4 Hn).
Qed.

Lemma header_line_padding_witness :
  all_whitespace " " ∧ clean_text "my section" ∧
  parse_line " [ my section ] " (None, mk_inifile ∅ ∅) =
    ret (Some "my section", mk_inifile {[ "my section" := ∅ ]} ∅).
Proof.
  assert (Hw : all_whitespace " ") by (repeat split).
  assert (Hn : clean_text "my section") by (split_and!; reflexivity).
  split_and!; [done..|].
  rewrite (header_line_padding " " " " " " " " "my section"
             (None, mk_inifile ∅ ∅) Hw Hw Hw Hw Hn).
  vm_compute. reflexivity.
Defined.

(** ** X17: appending an entry *)

Lemma clean_key_line key value :
  clean_key key → clean_text value →
  key +:+ "=" +:+ value ≠ EmptyString ∧
  std_string.mem "010" (key +:+ "=" +:+ value) = false.
Proof.
  intros (_ & _ & _ & _ & Hk & _) (_ & _ & _ & Hv). split.
  - by destruct key.
  - apply mem_app_false. split; [done|]. by apply mem_app_false.
Qed.

(** X17.  Appending the line [key=value] to a document that parses
    gives a document that parses, ends in the same section, and differs
    from the first store in one binding only: [key] is bound to [value]
    in the section the first document ended in. *)
Theorem parse_loop_append_entry (a key value : string) (cur : cursec_t)
    (ia : inifile) :
  parse_loop a (None, mk_inifile ∅ ∅) = ret (cur, ia) →
  clean_key key → clean_text value →
  parse_loop (a +:+ LF +:+ key +:+ "=" +:+ value) (None, mk_inifile ∅ ∅) =
    ret (cur, cursec_assign cur key value ia) ∧
  store_lookup (cursec_assign cur key value ia) cur key = Some value ∧
  (∀ sec key', (sec, key') ≠ (cur, key) →
     store_lookup (cursec_assign cur key value ia) sec key' =
     store_lookup ia sec key') ∧
  (∀ name, is_Some (sections_ (cursec_assign cur key value ia) !! name) ↔
           is_Some (sections_ ia !! name)).
Proof.
  intros Hloop Hkey Hvalue.
  destruct (clean_key_line key value Hkey Hvalue) as [Hne Hnl].
  pose proof Hloop as Hlines. rewrite parse_loop_lines in Hlines.
  assert (Hvalid : cursec_valid (cur, ia)).
  { pose proof Hlines as Ht. apply parse_lines_tokens in Ht.
    destruct (foldl_tokens_store (spec_tokens (stream_lines a))
                (None, mk_inifile ∅ ∅) initial_state_valid) as (Hv & _).
    by rewrite <- Ht in Hv. }
  split_and!.
  - rewrite parse_loop_lines, stream_lines_app, parse_lines_app.
    rewrite parse_lines_newline, Hlines, (stream_lines_last _ Hne Hnl).
    unfold ret. cbn [parse_lines]. rewrite parse_line_spec.
    pose proof (entry_spec_line EmptyString EmptyString EmptyString EmptyString
                  key value EmptyString I I I I Hkey Hvalue (or_introl eq_refl))
      as Hline.
    rewrite !string_app_nil_l, !string_app_nil_r in Hline. by rewrite Hline.
  - rewrite (cursec_assign_lookup _ _ _ _ _ _ Hvalid). by rewrite decide_True.
  - intros sec key' Hother.
    rewrite (cursec_assign_lookup _ _ _ _ _ _ Hvalid).
    rewrite decide_False; [done|]. intros [-> ->]. by apply Hother.
  - intros name. apply cursec_assign_declared.
Qed.

Lemma parse_loop_append_entry_witness :
  parse_loop doc_default_section (None, mk_inifile ∅ ∅) =
    ret (Some "a", store_of doc_default_section) ∧
  clean_key "j" ∧ clean_text "3" ∧
  store_lookup (cursec_assign (Some "a") "j" "3" (store_of doc_default_section))
               (Some "a") "j" = Some "3".
Proof.
  assert (Hloop : parse_loop doc_default_section (None, mk_inifile ∅ ∅) =
                  ret (Some "a", store_of doc_default_section))
    by (vm_compute; reflexivity).
  assert (Hkey : clean_key "j").
  { split_and!; try reflexivity. by intros [t [=]]. }
  assert (Hvalue : clean_text "3") by (split_and!; reflexivity).
  split_and!; [done..|].
  exact (proj1 (proj2 (parse_loop_append_entry _ _ _ _ _ Hloop Hkey Hvalue))).
Defined.

(** ** X18: the string overloads of [getval] *)

(** X18.  The string overloads of [getval], on the store and on a
    section handle, never throw and return what [dget] returns: the
    stored string when [get] finds one and the default otherwise, so the
    handler of their function-try-block is never entered. *)
Theorem getval_string_dget (ini : inifile) (sec key def : string) :
  getval_string ini sec key def = dget ini sec key def ∧
  getval_string ini sec key def =
    ret (match get ini sec key with inr value => value | inl _ => def end) ∧
  (∀ h, section ini sec = ret h →
        inisection_getval_string h key def = getval_string ini sec key def).
Proof.
  assert (Hd : dget ini sec key def =
    ret (match get ini sec key with inr value => value | inl _ => def end)).
  { unfold dget, get. destruct (sections_ ini !! sec) as [kv|]; [|done].
    by destruct (kv !! key). }
  unfold getval_string. rewrite Hd. split_and!; [done..|].
  intros h. unfold section. destruct (sections_ ini !! sec); [|done].
  intros [= <-]. unfold inisection_getval_string, inisection_dget.
  cbn [_ini _section]. by rewrite Hd.
Qed.

(** ** X19: white space around any line *)

(** X19.  The loop body only sees the trimmed line: white space before
    and after a line, a carriage return at its end in particular, does
    not change what the body does with it, whether it binds, switches
    section or throws. *)
Theorem parse_line_outer_padding (line : string) (st : cursec_t * inifile) :
  (∀ w1 w2, all_whitespace w1 → all_whitespace w2 →
            parse_line (w1 +:+ line +:+ w2) st = parse_line line st) ∧
  parse_line (line +:+ String "013" EmptyString) st = parse_line line st.
Proof.
  assert (Hpad : ∀ w1 w2, all_whitespace w1 → all_whitespace w2 →
            parse_line (w1 +:+ line +:+ w2) st = parse_line line st).
  { intros w1 w2 Hw1 Hw2. unfold parse_line. destruct st as [cursec ini].
    by rewrite trim_padding. }
  split; [done|].
  rewrite <- (string_app_nil_l (line +:+ String "013" EmptyString)).
  apply Hpad; [done|by split].
Qed.

(** ** X20, X21: repeating and swapping lines *)

Lemma sections_index_idempotent name ini :
  sections_index name (sections_index name ini) = sections_index name ini.
Proof.
  unfold sections_index at 2 3.
  destruct (sections_ ini !! name) as [kv|] eqn:Hn.
  - unfold sections_index. by rewrite Hn.
  - unfold sections_index. cbn [sections_]. by rewrite lookup_insert_eq.
Qed.

Lemma alter_insert_twice (m : gmap string (gmap string string)) name k v :
  alter (insert k v) name (alter (insert k v) name m) =
  alter (insert k v) name m.
Proof.
  apply map_eq. intros i. destruct (decide (name = i)) as [->|Hne].
  - rewrite !lookup_alter_eq. destruct (m !! i) as [kv|]; [|done].
    cbn. by rewrite insert_insert_eq.
  - by rewrite !lookup_alter_ne.
Qed.

Lemma cursec_assign_idempotent cur k v ini :
  cursec_assign cur k v (cursec_assign cur k v ini) = cursec_assign cur k v ini.
Proof.
  destruct cur as [name|]; unfold cursec_assign; cbn [sections_ defaultsection_].
  - by rewrite alter_insert_twice.
  - by rewrite insert_insert_eq.
Qed.

(** X20.  Running the loop body twice on the same line is running it
    once: a repeated header or a repeated entry leaves the state the
    first occurrence produced. *)
Theorem parse_line_idempotent (line : string) (st st' : cursec_t * inifile) :
  parse_line line st = ret st' → parse_line line st' = ret st'.
Proof.
  rewrite !parse_line_spec.
  destruct (spec_line line) as [|[name|k v]| |]; cbn [spec_step apply_token];
    unfold ret, throw; intros [= <-]; [done| |]; cbn [fst snd].
  - by rewrite sections_index_idempotent.
  - by rewrite cursec_assign_idempotent.
Qed.

Lemma parse_line_idempotent_witness :
  parse_line "k = v" (None, mk_inifile ∅ ∅) =
    ret (None, mk_inifile ∅ {[ "k" := "v" ]}) ∧
  parse_line "k = v" (None, mk_inifile ∅ {[ "k" := "v" ]}) =
    ret (None, mk_inifile ∅ {[ "k" := "v" ]}).
Proof.
  assert (H1 : parse_line "k = v" (None, mk_inifile ∅ ∅) =
               ret (None, mk_inifile ∅ {[ "k" := "v" ]}))
    by (vm_compute; reflexivity).
  split; [exact H1|]. exact (parse_line_idempotent _ _ _ H1).
Defined.

Lemma alter_insert_commute (m : gmap string (gmap string string))
    name k1 v1 k2 v2 :
  k1 ≠ k2 →
  alter (insert k1 v1) name (alter (insert k2 v2) name m) =
  alter (insert k2 v2) name (alter (insert k1 v1) name m).
Proof.
  intros Hk. apply map_eq. intros i. destruct (decide (name = i)) as [->|Hne].
  - rewrite !lookup_alter_eq. destruct (m !! i) as [kv|]; [|done].
    cbn. f_equal. by apply insert_insert_ne.
  - by rewrite !lookup_alter_ne.
Qed.

Lemma cursec_assign_commute cur k1 v1 k2 v2 ini :
  k1 ≠ k2 →
  cursec_assign cur k1 v1 (cursec_assign cur k2 v2 ini) =
  cursec_assign cur k2 v2 (cursec_assign cur k1 v1 ini).
Proof.
  intros Hk.
  destruct cur as [name|]; unfold cursec_assign; cbn [sections_ defaultsection_].
  - by rewrite alter_insert_commute.
  - f_equal. by apply insert_insert_ne.
Qed.

(** X21.  Two neighbouring entry lines with different keys can be
    swapped without changing what the constructor does: within a section
    the order of entries for different keys does not matter. *)
Theorem entry_lines_commute (a b l1 l2 k1 v1 k2 v2 : string) :
  std_string.mem "010" l1 = false →
  std_string.mem "010" l2 = false →
  spec_line l1 = Token (TEntry k1 v1) →
  spec_line l2 = Token (TEntry k2 v2) →
  k1 ≠ k2 →
  inifile_ctor (a +:+ LF +:+ l1 +:+ LF +:+ l2 +:+ LF +:+ b) =
  inifile_ctor (a +:+ LF +:+ l2 +:+ LF +:+ l1 +:+ LF +:+ b).
Proof.
  intros Hn1 Hn2 H1 H2 Hk.
  rewrite !inifile_ctor_lines, !(stream_lines_app a).
  rewrite (stream_lines_first l1 (l2 +:+ LF +:+ b) Hn1).
  rewrite (stream_lines_first l2 (l1 +:+ LF +:+ b) Hn2).
  rewrite (stream_lines_first l2 b Hn2), (stream_lines_first l1 b Hn1).
  rewrite !parse_lines_app.
  destruct (parse_lines (stream_lines (a +:+ LF)) _) as [e|[cur ini]]; [done|].
  cbn [parse_lines]. rewrite !parse_line_spec, H1, H2.
  cbn [spec_step apply_token]. unfold ret. cbn [fst snd].
  rewrite !parse_line_spec, H1, H2. cbn [spec_step apply_token].
  unfold ret. cbn [fst snd].
  by rewrite cursec_assign_commute.
Qed.

Lemma entry_lines_commute_witness :
  spec_line "x=1" = Token (TEntry "x" "1") ∧
  spec_line "y=2" = Token (TEntry "y" "2") ∧
  inifile_ctor ("[a]" +:+ LF +:+ "x=1" +:+ LF +:+ "y=2" +:+ LF +:+ "[b]") =
  inifile_ctor ("[a]" +:+ LF +:+ "y=2" +:+ LF +:+ "x=1" +:+ LF +:+ "[b]").
Proof.
  assert (H1 : spec_line "x=1" = Token (TEntry "x" "1")) by reflexivity.
  assert (H2 : spec_line "y=2" = Token (TEntry "y" "2")) by reflexivity.
  split_and!; [done..|].
  apply (entry_lines_commute "[a]" "[b]" "x=1" "y=2" "x" "1" "y" "2"
           eq_refl eq_refl H1 H2).
  discriminate.
Defined.
